(** * osmium::relations::RelationsDatabase and RelationHandle

    A shallow embedding of
    [contrib/libosmium/osmium/relations/relations_database.hpp]:
    the vector of [element]s owned by the database, the stash it stores the
    relations in, and the operations of [RelationsDatabase] and
    [RelationHandle] as functions on an explicit database state.

    Conventions.
    - [std::size_t] counters are [N] with the 64-bit wrap-around of [++] and
      [--] written out.
    - [std::vector<element>] is a [list element]; positions are list indices
      ([nat]).  A vector never holds [2^64] elements, so [size() - 1] after a
      [push_back] does not wrap.
    - [assert] is modelled as enabled: a failing assertion ends the run with
      [AssertionFailed] and no state.  Indexing the vector out of range
      where the source has no assertion is [Undefined].
    - A [RelationHandle] is a (database, position) pair; every operation on
      it takes the current state of that database explicitly. *)

From stdpp Require Import base decidable option numbers list sorting.

Local Open Scope N_scope.

(** ** Results of operations *)

Inductive outcome (A : Type) : Type :=
  | Done (a : A)
  | AssertionFailed
  | Undefined
  | OutOfFuel.
Arguments Done {A} a.
Arguments AssertionFailed {A}.
Arguments Undefined {A}.
Arguments OutOfFuel {A}.

#[global] Instance outcome_ret : MRet outcome := @Done.
#[global] Instance outcome_bind : MBind outcome := λ A B f x,
  match x with
  | Done a => f a
  | AssertionFailed => AssertionFailed
  | Undefined => Undefined
  | OutOfFuel => OutOfFuel
  end.

(** ** std::size_t *)

Definition size_t : Type := N.
Definition size_t_modulus : N := 2 ^ 64.
Definition size_t_max : N := size_t_modulus - 1.

(** [++x] on a [std::size_t]. *)
Definition size_t_inc (x : size_t) : size_t := (x + 1) mod size_t_modulus.
(** [--x] on a [std::size_t]. *)
Definition size_t_dec (x : size_t) : size_t :=
  (x + size_t_max) mod size_t_modulus.

(** ** The stash *)

(** Modelled from the spec: [osmium::ItemStash] and [osmium::Relation]
    ([osmium/storage/item_stash.hpp], [osmium/osm/relation.hpp]) are included
    by the database but are not among the sources.  The Backing Store is an
    allocator of opaque payloads that issues a handle per payload, with
    fetch by handle, release by handle and a validity check on handles; a
    default-constructed handle exists.  The operations are taken as
    parameters; what the spec says about them is stated as the laws below
    and assumed only by the theorems that need it. *)
Class ItemStash : Type := {
  Relation : Type;
  handle_type : Type;
  stash : Type;
  (** [handle_type{}] *)
  default_handle : handle_type;
  (** [handle.valid()] *)
  valid : handle_type → bool;
  (** [stash.add_item(relation)] *)
  add_item : stash → Relation → stash * handle_type;
  (** [stash.get<osmium::Relation>(handle)] *)
  get : stash → handle_type → outcome Relation;
  (** [stash.remove_item(handle)] *)
  remove_item : stash → handle_type → outcome stash;
}.

Section Database.
Context `{ItemStash}.

(** Modelled from the spec: "default-constructed handle is invalid". *)
Definition default_handle_invalid : Prop :=
  valid default_handle = false.

(** Modelled from the spec: a slot created by insertion is a live slot,
    one "whose payload handle is currently valid". *)
Definition add_item_valid : Prop :=
  ∀ st r, valid (add_item st r).2 = true.

(** Modelled from the spec: a second [remove()] on a position fails.  The
    database itself does not check, so the stash has to refuse the
    default handle a removed slot holds. *)
Definition remove_item_checks_handle : Prop :=
  ∀ st h st', remove_item st h = Done st' → valid h = true.

(** Modelled from the spec: the store "issues an opaque stable handle per
    payload": adding an item leaves what the existing handles resolve to
    unchanged. *)
Definition handles_stable : Prop :=
  ∀ st r h rel, get st h = Done rel → get (add_item st r).1 h = Done rel.

(** ** RelationsDatabase *)

(** [struct element] *)
Record element : Type := {
  handle : handle_type;
  members : size_t;
}.

Record RelationsDatabase : Type := {
  m_stash : stash;
  m_elements : list element;
}.

(** [explicit RelationsDatabase(osmium::ItemStash& stash)] *)
Definition new_database (st : stash) : RelationsDatabase :=
  {| m_stash := st; m_elements := [] |}.

(** [RelationHandle]: [m_relation_database] is the database whose state
    the operations below are given; [m_pos] is the position. *)
Record RelationHandle : Type := { m_pos : nat }.

(** [pos()] *)
Definition pos (h : RelationHandle) : nat := m_pos h.

(** [size()] *)
Definition size (db : RelationsDatabase) : nat := length (m_elements db).

(** [get_relation(pos)] *)
Definition get_relation (p : nat) (db : RelationsDatabase)
  : outcome Relation :=
  if decide (p < size db)%nat then
    match m_elements db !! p with
    | Some e => get (m_stash db) (handle e)
    | None => Undefined
    end
  else AssertionFailed.

(** [members(pos)] returns a reference; reading through it ... *)
Definition load_members (p : nat) (db : RelationsDatabase)
  : outcome size_t :=
  match m_elements db !! p with
  | Some e => Done (members e)
  | None => Undefined
  end.

(** ... and assigning through it. *)
Definition store_members (p : nat) (value : size_t) (db : RelationsDatabase)
  : outcome RelationsDatabase :=
  match m_elements db !! p with
  | Some e =>
      Done {| m_stash := m_stash db;
              m_elements :=
                <[p := {| handle := handle e; members := value |}]>
                  (m_elements db) |}
  | None => Undefined
  end.

(** [remove(pos)] *)
Definition remove (p : nat) (db : RelationsDatabase)
  : outcome RelationsDatabase :=
  match m_elements db !! p with
  | Some elem =>
      st ← remove_item (m_stash db) (handle elem);
      mret {| m_stash := st;
              m_elements :=
                <[p := {| handle := default_handle; members := 0 |}]>
                  (m_elements db) |}
  | None => Undefined
  end.

(** [add(relation)] *)
Definition add (relation : Relation) (db : RelationsDatabase)
  : RelationsDatabase * RelationHandle :=
  let '(st, hd) := add_item (m_stash db) relation in
  let db' := {| m_stash := st;
                m_elements :=
                  m_elements db ++ [{| handle := hd; members := 0 |}] |} in
  (db', {| m_pos := (size db' - 1)%nat |}).

(** [operator[](pos)] *)
Definition operator_index (p : nat) (db : RelationsDatabase)
  : outcome RelationHandle :=
  if decide (p < size db)%nat then Done {| m_pos := p |}
  else AssertionFailed.

(** [count_relations()] *)
Definition count_relations (db : RelationsDatabase) : nat :=
  length (filter (λ elem, Is_true (valid (handle elem))) (m_elements db)).

(** ** RelationHandle *)

(** [operator*()] and [operator->()] *)
Definition relation (h : RelationHandle) (db : RelationsDatabase)
  : outcome Relation :=
  get_relation (m_pos h) db.

(** [remove()] *)
Definition handle_remove (h : RelationHandle) (db : RelationsDatabase)
  : outcome RelationsDatabase :=
  remove (pos h) db.

(** [set_members(value)] *)
Definition set_members (value : size_t) (h : RelationHandle)
    (db : RelationsDatabase) : outcome RelationsDatabase :=
  store_members (m_pos h) value db.

(** [increment_members()] *)
Definition increment_members (h : RelationHandle) (db : RelationsDatabase)
  : outcome RelationsDatabase :=
  m ← load_members (m_pos h) db;
  store_members (m_pos h) (size_t_inc m) db.

(** [decrement_members()] *)
Definition decrement_members (h : RelationHandle) (db : RelationsDatabase)
  : outcome RelationsDatabase :=
  m ← load_members (m_pos h) db;
  if decide (0 < m) then store_members (m_pos h) (size_t_dec m) db
  else AssertionFailed.

(** [has_all_members()] *)
Definition has_all_members (h : RelationHandle) (db : RelationsDatabase)
  : outcome bool :=
  m ← load_members (m_pos h) db;
  mret (bool_decide (m = 0)).

(** ** Iteration *)

(** The callback of [for_each_relation] is a C++ callable: it reads and
    updates whatever it captured (a state of type [A]) and, through the
    handle it is given, the database. *)
Definition callback (A : Type) : Type :=
  RelationHandle → A → RelationsDatabase → outcome (A * RelationsDatabase).

(** The [for] loop of [for_each_relation], entered at position [p].  The
    condition [pos < m_elements.size()] is evaluated again on every round,
    on the state the callback left; a callback that keeps adding relations
    keeps the loop running, hence the fuel. *)
Fixpoint for_each_relation_from {A : Type} (fuel : nat) (func : callback A)
    (p : nat) (a : A) (db : RelationsDatabase)
  : outcome (A * RelationsDatabase) :=
  if decide (p < size db)%nat then
    match fuel with
    | O => OutOfFuel
    | S fuel' =>
        match m_elements db !! p with
        | Some elem =>
            if valid (handle elem) then
              '(a', db') ← func {| m_pos := p |} a db;
              for_each_relation_from fuel' func (p + 1)%nat a' db'
            else for_each_relation_from fuel' func (p + 1)%nat a db
        | None => Undefined
        end
    end
  else Done (a, db).

(** [for_each_relation(func)] *)
Definition for_each_relation {A : Type} (fuel : nat) (func : callback A)
    (a : A) (db : RelationsDatabase) : outcome (A * RelationsDatabase) :=
  for_each_relation_from fuel func 0%nat a db.

(** Calling the callback on the handles of a list of positions, one after
    the other: what a run of the loop is compared with. *)
Fixpoint visit_all {A : Type} (func : callback A) (ps : list nat)
    (a : A) (db : RelationsDatabase) : outcome (A * RelationsDatabase) :=
  match ps with
  | [] => Done (a, db)
  | p :: ps' =>
      '(a', db') ← func {| m_pos := p |} a db;
      visit_all func ps' a' db'
  end.

(** Is the payload handle of the slot at [p] valid? *)
Definition live (db : RelationsDatabase) (p : nat) : bool :=
  match m_elements db !! p with
  | Some elem => valid (handle elem)
  | None => false
  end.

(** The positions with a valid payload handle, in ascending order. *)
Definition live_positions_from (db : RelationsDatabase) (p : nat) : list nat :=
  filter (λ q, Is_true (live db q)) (seq p (size db - p)).

Definition live_positions (db : RelationsDatabase) : list nat :=
  live_positions_from db 0.

(** A callback that only records the position it is called with. *)
Definition record_position : callback (list nat) :=
  λ h log db, Done (log ++ [pos h], db).

(** A callback that counts its calls and increments the counter of the
    relation it is given. *)
Definition count_and_increment : callback nat :=
  λ h k db, db' ← increment_members h db; mret (S k, db').

(** A callback that removes the relation it is given when it has all its
    members, and records the positions it removed. *)
Definition remove_if_complete : callback (list nat) :=
  λ h log db,
    complete ← has_all_members h db;
    if (complete : bool) then
      db' ← handle_remove h db; mret (log ++ [pos h], db')
    else mret (log, db).

(** ** Sequences of operations *)

(** One call made by a user of the database.  A handle is what [add]
    returned or what [operator[]] gives for a position; the calls on a
    handle are given by the position they go through. *)
Inductive operation : Type :=
  | Add (relation : Relation)
  | SetMembers (p : nat) (value : size_t)
  | IncrementMembers (p : nat)
  | DecrementMembers (p : nat)
  | Remove (p : nat).

Definition step (o : operation) (db : RelationsDatabase)
  : outcome RelationsDatabase :=
  match o with
  | Add relation => Done (add relation db).1
  | SetMembers p value => h ← operator_index p db; set_members value h db
  | IncrementMembers p => h ← operator_index p db; increment_members h db
  | DecrementMembers p => h ← operator_index p db; decrement_members h db
  | Remove p => h ← operator_index p db; handle_remove h db
  end.

Fixpoint run (ops : list operation) (db : RelationsDatabase)
  : outcome RelationsDatabase :=
  match ops with
  | [] => Done db
  | o :: ops' => db' ← step o db; run ops' db'
  end.

Definition is_add (o : operation) : bool :=
  match o with Add _ => true | _ => false end.

Definition is_remove (o : operation) : bool :=
  match o with Remove _ => true | _ => false end.

(** The number of [add()] calls, and of [remove()] calls, in a sequence. *)
Definition count_adds (ops : list operation) : nat :=
  length (filter (λ o, Is_true (is_add o)) ops).

Definition count_removes (ops : list operation) : nat :=
  length (filter (λ o, Is_true (is_remove o)) ops).

(** [add] called for each relation of a list, in order. *)
Definition add_all (rs : list Relation) (db : RelationsDatabase)
  : RelationsDatabase :=
  foldl (λ d r, (add r d).1) db rs.

(** [decrement_members()] called [k] times on the same handle. *)
Fixpoint decrement_times (k : nat) (h : RelationHandle)
    (db : RelationsDatabase) : outcome RelationsDatabase :=
  match k with
  | O => Done db
  | S k' => db' ← decrement_members h db; decrement_times k' h db'
  end.

(** What a call changes at most when it touches only the counter of the
    slot at [p]: the stash, the number of slots, the payload handle at [p]
    and every other slot stay as they were. *)
Definition only_counter_changed (p : nat) (db db' : RelationsDatabase)
  : Prop :=
  m_stash db' = m_stash db
  ∧ size db' = size db
  ∧ handle <$> m_elements db' !! p = handle <$> m_elements db !! p
  ∧ ∀ q, q ≠ p → m_elements db' !! q = m_elements db !! q.

(** ** Further laws of the stash, and further runs *)

(** Modelled from the spec: [get(handle)] is the fetch by handle of the
    payload [add(payload)] copied in. *)
Definition get_after_add : Prop :=
  ∀ st r, get (add_item st r).1 (add_item st r).2 = Done r.

(** Modelled from the spec: dereferencing the payload of a removed slot is
    detected at access time; the stash does not resolve an invalid
    handle. *)
Definition get_checks_handle : Prop :=
  ∀ st h r, get st h = Done r → valid h = true.

(** [increment_members()] called [k] times on the same handle. *)
Fixpoint increment_times (k : nat) (h : RelationHandle)
    (db : RelationsDatabase) : outcome RelationsDatabase :=
  match k with
  | O => Done db
  | S k' => db' ← increment_members h db; increment_times k' h db'
  end.

(** Is the call one of the three counter operations, on position [p]? *)
Definition is_counter_operation_at (p : nat) (o : operation) : bool :=
  match o with
  | SetMembers q _ | IncrementMembers q | DecrementMembers q =>
      bool_decide (q = p)
  | _ => false
  end.



End Database.

(** ** A concrete stash *)

(** Modelled from the spec: a Backing Store to evaluate the database on
    concrete inputs.  Payloads are relation ids; a handle is the index of
    the payload plus one, so that the default handle [0] is invalid;
    release marks the entry as gone, and fetching or releasing through an
    invalid or released handle fails. *)
Definition vector_stash_entry (st : list (option Z)) (h : N) : option Z :=
  if decide (h = 0) then None
  else mjoin (st !! (N.to_nat h - 1)%nat).

Definition vector_stash : ItemStash := {|
  Relation := Z;
  handle_type := N;
  stash := list (option Z);
  default_handle := 0;
  valid := λ h, negb (h =? 0);
  add_item := λ st r, (st ++ [Some r], N.of_nat (length st) + 1);
  get := λ st h,
    match vector_stash_entry st h with
    | Some r => Done r
    | None => AssertionFailed
    end;
  remove_item := λ st h,
    match vector_stash_entry st h with
    | Some _ => Done (<[(N.to_nat h - 1)%nat := None]> st)
    | None => AssertionFailed
    end;
|}.

(** ** Concrete databases *)

(** Three relations added to a new database. *)
Definition db_three : @RelationsDatabase vector_stash :=
  add_all (H := vector_stash) [10%Z; 20%Z; 30%Z]
    (new_database (H := vector_stash) []).

(** Two relations, the first waiting for one more of two members ... *)
Definition ops_waiting : list (@operation vector_stash) :=
  [Add (H := vector_stash) 10%Z; Add (H := vector_stash) 20%Z;
   SetMembers 0 2; DecrementMembers 0].

(** ... which arrives; the first relation is removed and a third added. *)
Definition ops_completed : list (@operation vector_stash) :=
  [DecrementMembers 0; Remove 0; Add (H := vector_stash) 30%Z].

Definition db_after_removal : @RelationsDatabase vector_stash :=
  Build_RelationsDatabase (H := vector_stash)
    [None; Some 20%Z; Some 30%Z]
    [Build_element (H := vector_stash) 0 0;
     Build_element (H := vector_stash) 2 0;
     Build_element (H := vector_stash) 3 0].

(** A database reached by calls: one relation whose counter was set to the
    largest [std::size_t]. *)
Definition db_at_max : outcome (@RelationsDatabase vector_stash) :=
  run [Add (H := vector_stash) 7%Z; SetMembers 0 size_t_max]
      (new_database (H := vector_stash) []).

(** * tests/test-parse-xml2.cpp: the counting output *)

(** [uint64_t] counters are [Z] with the wrap-around of [+=] written out.
    An [osmid_t] is a signed integer; added to a [uint64_t] it is converted
    to [uint64_t], so the sum is taken modulo [2^64]. *)
Definition uint64_modulus : Z := 2 ^ 64.
Definition uint64_add (x y : Z) : Z := ((x + y) `mod` uint64_modulus)%Z.

Section TestOutput.
(** [double], [taglist_t] and the member type of [memberlist_t] are declared
    in headers that are not among the sources; the output does not look
    into them. *)
Context {double taglist_t member_t : Type}.

(** The counters of [struct test_output_t]. *)
Record test_output_t : Type := {
  sum_ids : Z;
  num_nodes : Z;
  num_ways : Z;
  num_relations : Z;
  num_nds : Z;
  num_members : Z;
}.

(** [test_output_t(const options_t &)]: all counters start at 0. *)
Definition test_output_new : test_output_t :=
  {| sum_ids := 0; num_nodes := 0; num_ways := 0; num_relations := 0;
     num_nds := 0; num_members := 0 |}.

(** [test_output_t(const test_output_t &other)], used by [clone]: the
    counters of [other] are not copied. *)
Definition test_output_copy (other : test_output_t) : test_output_t :=
  {| sum_ids := 0; num_nodes := 0; num_ways := 0; num_relations := 0;
     num_nds := 0; num_members := 0 |}.

(** [node_add(id, lat, lon, tags)] *)
Definition node_add (id : Z) (lat lon : double) (tags : taglist_t)
    (out : test_output_t) : outcome (Z * test_output_t) :=
  if decide (id > 0)%Z then
    Done (0%Z,
          {| sum_ids := uint64_add (sum_ids out) id;
             num_nodes := uint64_add (num_nodes out) 1;
             num_ways := num_ways out;
             num_relations := num_relations out;
             num_nds := num_nds out;
             num_members := num_members out |})
  else AssertionFailed.

(** [way_add(id, nds, tags)]; the second assertion, [nds.size() >= 0],
    compares an unsigned value with 0 and holds always. *)
Definition way_add (id : Z) (nds : list Z) (tags : taglist_t)
    (out : test_output_t) : outcome (Z * test_output_t) :=
  if decide (id > 0)%Z then
    Done (0%Z,
          {| sum_ids := uint64_add (sum_ids out) id;
             num_nodes := num_nodes out;
             num_ways := uint64_add (num_ways out) 1;
             num_relations := num_relations out;
             num_nds := uint64_add (num_nds out) (Z.of_nat (length nds));
             num_members := num_members out |})
  else AssertionFailed.

(** [relation_add(id, members, tags)] *)
Definition relation_add (id : Z) (members : list member_t) (tags : taglist_t)
    (out : test_output_t) : outcome (Z * test_output_t) :=
  if decide (id > 0)%Z then
    Done (0%Z,
          {| sum_ids := uint64_add (sum_ids out) id;
             num_nodes := num_nodes out;
             num_ways := num_ways out;
             num_relations := uint64_add (num_relations out) 1;
             num_nds := num_nds out;
             num_members :=
               uint64_add (num_members out) (Z.of_nat (length members)) |})
  else AssertionFailed.

(** One object of the input, as the parser hands it to the output. *)
Inductive osm_object : Type :=
  | OsmNode (id : Z) (lat lon : double) (tags : taglist_t)
  | OsmWay (id : Z) (nds : list Z) (tags : taglist_t)
  | OsmRelation (id : Z) (members : list member_t) (tags : taglist_t).

Definition object_id (o : osm_object) : Z :=
  match o with
  | OsmNode id _ _ _ | OsmWay id _ _ | OsmRelation id _ _ => id
  end.

(** The call the object leads to; the [int] it returns is dropped. *)
Definition output_add (o : osm_object) (out : test_output_t)
  : outcome test_output_t :=
  match o with
  | OsmNode id lat lon tags => r ← node_add id lat lon tags out; mret r.2
  | OsmWay id nds tags => r ← way_add id nds tags out; mret r.2
  | OsmRelation id members tags =>
      r ← relation_add id members tags out; mret r.2
  end.

Fixpoint output_add_all (os : list osm_object) (out : test_output_t)
  : outcome test_output_t :=
  match os with
  | [] => Done out
  | o :: os' => out' ← output_add o out; output_add_all os' out'
  end.

(** What the objects of a list add up to, before any wrap-around. *)
Definition total_ids (os : list osm_object) : Z :=
  foldr (λ o acc, (object_id o + acc)%Z) 0%Z os.

Definition count_nodes (os : list osm_object) : Z :=
  foldr (λ o acc, match o with OsmNode _ _ _ _ => (1 + acc)%Z | _ => acc end)
    0%Z os.

Definition count_ways (os : list osm_object) : Z :=
  foldr (λ o acc, match o with OsmWay _ _ _ => (1 + acc)%Z | _ => acc end)
    0%Z os.

Definition count_osm_relations (os : list osm_object) : Z :=
  foldr (λ o acc,
           match o with OsmRelation _ _ _ => (1 + acc)%Z | _ => acc end)
    0%Z os.

Definition total_nds (os : list osm_object) : Z :=
  foldr (λ o acc,
           match o with
           | OsmWay _ nds _ => (Z.of_nat (length nds) + acc)%Z
           | _ => acc
           end) 0%Z os.

Definition total_members (os : list osm_object) : Z :=
  foldr (λ o acc,
           match o with
           | OsmRelation _ members _ => (Z.of_nat (length members) + acc)%Z
           | _ => acc
           end) 0%Z os.

(** Every counter of the output is a [uint64_t] value. *)
Definition counters_are_uint64 (out : test_output_t) : Prop :=
  (0 ≤ sum_ids out < uint64_modulus
   ∧ 0 ≤ num_nodes out < uint64_modulus
   ∧ 0 ≤ num_ways out < uint64_modulus
   ∧ 0 ≤ num_relations out < uint64_modulus
   ∧ 0 ≤ num_nds out < uint64_modulus
   ∧ 0 ≤ num_members out < uint64_modulus)%Z.

End TestOutput.

(** * Properties *)

Section Properties.
Context `{ItemStash}.
Implicit Types (db : RelationsDatabase) (h : RelationHandle) (e : element).
Implicit Types (p q : nat) (v n : size_t).

(** ** std::size_t arithmetic *)

Lemma size_t_inc_no_wrap (x : size_t) :
  x < size_t_max → size_t_inc x = x + 1.
Proof.
  unfold size_t_inc, size_t_max, size_t_modulus. intros Hx.
  apply N.mod_small. lia.
Qed.

Lemma size_t_dec_no_wrap (x : size_t) :
  0 < x → x < size_t_modulus → size_t_dec x = x - 1.
Proof.
  unfold size_t_dec, size_t_max, size_t_modulus. intros H0 Hx.
  replace (x + (2 ^ 64 - 1)) with ((x - 1) + 1 * 2 ^ 64) by lia.
  rewrite N.Div0.mod_add. apply N.mod_small. lia.
Qed.

(** What [--] alone does at 0, and [++] at the largest value. *)
Lemma size_t_dec_zero : size_t_dec 0 = size_t_max.
Proof. reflexivity. Qed.

Lemma size_t_inc_max : size_t_inc size_t_max = 0.
Proof. reflexivity. Qed.

Lemma size_t_dec_inc (x : size_t) :
  x < size_t_max → size_t_dec (size_t_inc x) = x.
Proof.
  intros Hx. rewrite size_t_inc_no_wrap by done.
  unfold size_t_max, size_t_modulus in Hx.
  rewrite size_t_dec_no_wrap; unfold size_t_modulus; lia.
Qed.

(** ** Reading and assigning a counter *)

Lemma element_eta e : {| handle := handle e; members := members e |} = e.
Proof. by destruct e. Qed.

Lemma load_members_Some p db e :
  m_elements db !! p = Some e → load_members p db = Done (members e).
Proof. unfold load_members. by intros ->. Qed.

Lemma store_members_Some p v db e :
  m_elements db !! p = Some e →
  store_members p v db =
    Done {| m_stash := m_stash db;
            m_elements :=
              <[p := {| handle := handle e; members := v |}]>
                (m_elements db) |}.
Proof. unfold store_members. by intros ->. Qed.

Lemma lookup_in_range p db :
  (p < size db)%nat → ∃ e, m_elements db !! p = Some e.
Proof. intros Hp. by apply lookup_lt_is_Some_2. Qed.

Lemma decrement_members_zero h db e :
  m_elements db !! pos h = Some e → members e = 0 →
  decrement_members h db = AssertionFailed.
Proof.
  unfold pos. intros He Hz. unfold decrement_members.
  rewrite (load_members_Some _ _ _ He). simpl. rewrite Hz.
  by rewrite decide_False by lia.
Qed.

Lemma decrement_members_positive h db e :
  m_elements db !! pos h = Some e → 0 < members e →
  members e < size_t_modulus →
  decrement_members h db =
    Done {| m_stash := m_stash db;
            m_elements :=
              <[pos h := {| handle := handle e; members := members e - 1 |}]>
                (m_elements db) |}.
Proof.
  unfold pos. intros He Hpos Hlt. unfold decrement_members.
  rewrite (load_members_Some _ _ _ He). simpl.
  rewrite decide_True by done.
  rewrite (store_members_Some _ _ _ _ He).
  by rewrite size_t_dec_no_wrap.
Qed.

Lemma has_all_members_Some h db e :
  m_elements db !! pos h = Some e →
  has_all_members h db = Done (bool_decide (members e = 0)).
Proof.
  unfold pos. intros He. unfold has_all_members.
  by rewrite (load_members_Some _ _ _ He).
Qed.

(** ** Insertion *)

(** C1. For every relation and every database state, [add] appends exactly
    one element, whose handle is the one the stash issued and whose
    counter is 0; the handle it returns has the position [size()] had
    before the call; and [has_all_members()] on that handle, right after
    the call, is true. *)
Theorem add_appends_complete_slot (r : Relation) db :
  m_elements (add r db).1 =
    m_elements db ++
      [{| handle := (add_item (m_stash db) r).2; members := 0 |}]
  ∧ m_stash (add r db).1 = (add_item (m_stash db) r).1
  ∧ size (add r db).1 = S (size db)
  ∧ pos (add r db).2 = size db
  ∧ load_members (pos (add r db).2) (add r db).1 = Done 0
  ∧ has_all_members (add r db).2 (add r db).1 = Done true.
Proof.
  unfold add. destruct (add_item (m_stash db) r) as [st hd] eqn:Hadd.
  cbn [fst snd m_elements m_stash pos m_pos].
  set (slot := {| handle := hd; members := 0 |}).
  assert (Hlen : length (m_elements db ++ [slot]) = S (size db)).
  { unfold size. rewrite length_app. simpl. lia. }
  assert (Hl : (m_elements db ++ [slot]) !! size db = Some slot).
  { unfold size. by rewrite list_lookup_middle. }
  assert (Hp : (size {| m_stash := st;
                        m_elements := m_elements db ++ [slot] |} - 1)%nat
               = size db).
  { unfold size at 1. cbn [m_elements]. rewrite Hlen. lia. }
  rewrite Hp. repeat split.
  - done.
  - unfold load_members. cbn [m_elements]. by rewrite Hl.
  - unfold has_all_members, load_members. cbn [m_elements m_pos].
    by rewrite Hl.
Qed.

(** ** Counting down *)

Lemma decrement_times_S k h db :
  decrement_times (S k) h db =
    decrement_members h db ≫= decrement_times k h.
Proof. done. Qed.

Lemma decrement_times_snoc k h db :
  decrement_times (S k) h db =
    decrement_times k h db ≫= decrement_members h.
Proof.
  revert db. induction k as [|k IH]; intros db.
  - simpl. by destruct (decrement_members h db).
  - rewrite (decrement_times_S (S k)), (decrement_times_S k h db).
    destruct (decrement_members h db) as [db'| | |]; [|done..].
    exact (IH db').
Qed.

Lemma decrement_times_counter k h db e :
  m_elements db !! pos h = Some e →
  N.of_nat k ≤ members e → members e < size_t_modulus →
  ∃ db', decrement_times k h db = Done db'
    ∧ m_elements db' !! pos h =
        Some {| handle := handle e; members := members e - N.of_nat k |}.
Proof.
  revert db e. induction k as [|k IH]; intros db e He Hk Hlt.
  - exists db. split; [done|]. rewrite He. f_equal.
    rewrite N.sub_0_r. by destruct e.
  - simpl decrement_times.
    rewrite (decrement_members_positive _ _ _ He) by lia.
    simpl.
    set (db1 := {| m_stash := m_stash db; m_elements := _ |}).
    assert (He1 : m_elements db1 !! pos h =
              Some {| handle := handle e; members := members e - 1 |}).
    { simpl. apply list_lookup_insert_eq. by eapply lookup_lt_Some. }
    destruct (IH db1 _ He1) as (db' & Hrun & Hl); simpl; [lia..|].
    exists db'. split; [done|]. rewrite Hl. simpl. do 2 f_equal. lia.
Qed.

(** C2. On a handle of the database, after [set_members(n)]: every run of
    fewer than [n] calls of [decrement_members()] succeeds and leaves
    [has_all_members()] false; the run of exactly [n] calls succeeds and
    leaves it true; and one more call, the [(n+1)]-th, fails its
    assertion. *)
Theorem decrement_to_completion h db n :
  (pos h < size db)%nat → n < size_t_modulus →
  ∃ db0, set_members n h db = Done db0
    ∧ (∀ k, (k < N.to_nat n)%nat →
         ∃ dbk, decrement_times k h db0 = Done dbk
           ∧ has_all_members h dbk = Done false)
    ∧ (∃ dbn, decrement_times (N.to_nat n) h db0 = Done dbn
           ∧ has_all_members h dbn = Done true
           ∧ decrement_members h dbn = AssertionFailed)
    ∧ decrement_times (S (N.to_nat n)) h db0 = AssertionFailed.
Proof.
  intros Hp Hn. destruct (lookup_in_range _ _ Hp) as [e He].
  unfold set_members. fold (pos h).
  rewrite (store_members_Some _ n _ _ He).
  eexists. split; [done|].
  set (db0 := {| m_stash := m_stash db; m_elements := _ |}).
  assert (He0 : m_elements db0 !! pos h =
            Some {| handle := handle e; members := n |}).
  { simpl. apply list_lookup_insert_eq. by eapply lookup_lt_Some. }
  assert (Hall : ∃ dbn, decrement_times (N.to_nat n) h db0 = Done dbn
            ∧ has_all_members h dbn = Done true
            ∧ decrement_members h dbn = AssertionFailed).
  { destruct (decrement_times_counter (N.to_nat n) h db0 _ He0)
      as (dbn & Hrun & Hl); simpl; [lia..|].
    exists dbn. split; [done|]. split.
    - rewrite (has_all_members_Some _ _ _ Hl). simpl.
      f_equal. apply bool_decide_eq_true. lia.
    - apply (decrement_members_zero _ _ _ Hl). simpl. lia. }
  split; [|split; [exact Hall|]].
  - intros k Hk.
    destruct (decrement_times_counter k h db0 _ He0)
      as (dbk & Hrun & Hl); simpl; [lia..|].
    exists dbk. split; [done|].
    rewrite (has_all_members_Some _ _ _ Hl). simpl.
    f_equal. apply bool_decide_eq_false. lia.
  - destruct Hall as (dbn & Hrun & _ & Hfail).
    rewrite decrement_times_snoc, Hrun. exact Hfail.
Qed.

(** C3. [decrement_members()] on a slot whose counter is 0 fails the
    assertion [members(m_pos) > 0]: the call ends with an assertion
    failure, and there is no resulting database in which the counter
    could have wrapped around. *)
Theorem decrement_members_at_zero_fails h db e :
  m_elements db !! pos h = Some e → members e = 0 →
  decrement_members h db = AssertionFailed
  ∧ ∀ db', decrement_members h db ≠ Done db'.
Proof.
  intros He Hz. rewrite (decrement_members_zero _ _ _ He Hz). done.
Qed.

(** ** Increment, then decrement *)

(** C9 (amended). For a position below [size()] whose counter is below the
    largest [std::size_t], [increment_members()] followed by
    [decrement_members()] succeeds and gives back the database as it was:
    the counter, and with it [has_all_members()], has its old value. *)
Theorem increment_then_decrement_restores h db e :
  m_elements db !! pos h = Some e → members e < size_t_max →
  (increment_members h db ≫= decrement_members h) = Done db
  ∧ ((increment_members h db ≫= decrement_members h) ≫=
       load_members (pos h)) = load_members (pos h) db
  ∧ ((increment_members h db ≫= decrement_members h) ≫=
       has_all_members h) = has_all_members h db.
Proof.
  intros He Hlt.
  assert (Hid : (increment_members h db ≫= decrement_members h) = Done db).
  { unfold increment_members. fold (pos h).
    rewrite (load_members_Some _ _ _ He). simpl.
    rewrite (store_members_Some _ _ _ _ He). simpl.
    set (db1 := {| m_stash := m_stash db; m_elements := _ |}).
    assert (He1 : m_elements db1 !! pos h =
              Some {| handle := handle e;
                      members := size_t_inc (members e) |}).
    { simpl. apply list_lookup_insert_eq. by eapply lookup_lt_Some. }
    unfold decrement_members. fold (pos h).
    rewrite (load_members_Some _ _ _ He1). simpl.
    rewrite size_t_dec_inc by done.
    rewrite size_t_inc_no_wrap by done.
    rewrite decide_True by lia.
    rewrite (store_members_Some _ _ _ _ He1). simpl.
    rewrite list_insert_insert_eq, element_eta.
    rewrite list_insert_id by done. by destruct db. }
  split; [done|]. rewrite Hid. done.
Qed.

(** ** Frame of the counter operations *)

Lemma store_members_frame p v db db' :
  store_members p v db = Done db' → only_counter_changed p db db'.
Proof.
  unfold store_members.
  destruct (m_elements db !! p) as [e|] eqn:He; [|done].
  intros [= <-]. unfold only_counter_changed, size. simpl.
  split; [done|]. split; [by rewrite length_insert|]. split.
  - rewrite list_lookup_insert_eq by (by eapply lookup_lt_Some).
    by rewrite He.
  - intros q Hq. by rewrite list_lookup_insert_ne.
Qed.

(** C10. On a handle of the database, [set_members(value)] and
    [increment_members()] succeed, and they and every successful
    [decrement_members()] change the counter of the slot at the handle's
    position at most: the stash, [size()], the payload handle of that slot
    and every other slot are unchanged. *)
Theorem counter_operations_frame h db :
  (pos h < size db)%nat →
  (∀ v, ∃ db', set_members v h db = Done db'
      ∧ only_counter_changed (pos h) db db')
  ∧ (∃ db', increment_members h db = Done db'
      ∧ only_counter_changed (pos h) db db')
  ∧ (∀ db', decrement_members h db = Done db' →
      only_counter_changed (pos h) db db').
Proof.
  intros Hp. destruct (lookup_in_range _ _ Hp) as [e He].
  split; [|split].
  - intros v. unfold set_members. fold (pos h).
    destruct (store_members (pos h) v db) as [db'| | |] eqn:Hs;
      try (rewrite (store_members_Some _ _ _ _ He) in Hs; discriminate).
    exists db'. split; [done|]. by eapply store_members_frame.
  - unfold increment_members. fold (pos h).
    rewrite (load_members_Some _ _ _ He). simpl.
    destruct (store_members (pos h) (size_t_inc (members e)) db)
      as [db'| | |] eqn:Hs;
      try (rewrite (store_members_Some _ _ _ _ He) in Hs; discriminate).
    exists db'. split; [done|]. by eapply store_members_frame.
  - intros db'. unfold decrement_members. fold (pos h).
    rewrite (load_members_Some _ _ _ He). simpl.
    case_decide; [|done]. apply store_members_frame.
Qed.

(** ** Removal *)

Lemma live_lookup db p e :
  m_elements db !! p = Some e → live db p = valid (handle e).
Proof. unfold live. by intros ->. Qed.

(** C6. For a handle whose position is below [size()], once the stash has
    released the payload handle of the slot, [remove] has put the
    default-constructed handle and the counter 0 in the slot: the handle of
    the slot is invalid, its counter is 0, the position is still below
    [size()] and [operator[]] still accepts it; the other slots are as
    before. *)
Theorem remove_resets_slot h db :
  default_handle_invalid → (pos h < size db)%nat →
  ∃ elem, m_elements db !! pos h = Some elem
    ∧ handle_remove h db = remove (pos h) db
    ∧ ∀ st, remove_item (m_stash db) (handle elem) = Done st →
        ∃ db', remove (pos h) db = Done db'
          ∧ m_stash db' = st
          ∧ m_elements db' !! pos h =
              Some {| handle := default_handle; members := 0 |}
          ∧ live db' (pos h) = false
          ∧ load_members (pos h) db' = Done 0
          ∧ size db' = size db
          ∧ (pos h < size db')%nat
          ∧ operator_index (pos h) db' = Done h
          ∧ ∀ q, q ≠ pos h → m_elements db' !! q = m_elements db !! q.
Proof.
  intros Hdef Hp. destruct (lookup_in_range _ _ Hp) as [elem He].
  exists elem. split; [done|]. split; [done|].
  intros st Hst. unfold remove. rewrite He, Hst. simpl.
  eexists. split; [done|]. simpl.
  assert (Hl : <[pos h := {| handle := default_handle; members := 0 |}]>
                 (m_elements db) !! pos h =
               Some {| handle := default_handle; members := 0 |}).
  { apply list_lookup_insert_eq. exact Hp. }
  assert (Hsz : size {| m_stash := st;
                        m_elements :=
                          <[pos h := {| handle := default_handle;
                                        members := 0 |}]> (m_elements db) |}
                = size db).
  { unfold size. simpl. by rewrite length_insert. }
  repeat split.
  - exact Hl.
  - erewrite live_lookup by exact Hl. exact Hdef.
  - erewrite load_members_Some by exact Hl. done.
  - exact Hsz.
  - rewrite Hsz. exact Hp.
  - unfold operator_index. rewrite Hsz, decide_True by done.
    by destruct h.
  - intros q Hq. by rewrite list_lookup_insert_ne.
Qed.

(** ** Sequences of operations: [size()] and [count_relations()] *)

Lemma run_app ops1 ops2 db :
  run (ops1 ++ ops2) db = run ops1 db ≫= run ops2.
Proof.
  revert db. induction ops1 as [|o ops1 IH]; intros db; [done|].
  simpl. destruct (step o db) as [db'| | |]; [|done..]. apply IH.
Qed.

Lemma count_adds_cons o ops :
  count_adds (o :: ops) = ((if is_add o then 1 else 0) + count_adds ops)%nat.
Proof.
  unfold count_adds. rewrite filter_cons.
  destruct (is_add o); by case_decide.
Qed.

Lemma count_removes_cons o ops :
  count_removes (o :: ops) =
    ((if is_remove o then 1 else 0) + count_removes ops)%nat.
Proof.
  unfold count_removes. rewrite filter_cons.
  destruct (is_remove o); by case_decide.
Qed.

Lemma count_adds_app ops1 ops2 :
  count_adds (ops1 ++ ops2) = (count_adds ops1 + count_adds ops2)%nat.
Proof. unfold count_adds. by rewrite filter_app, length_app. Qed.

Lemma operator_index_Done p db h :
  operator_index p db = Done h → h = {| m_pos := p |} ∧ (p < size db)%nat.
Proof. unfold operator_index. case_decide; [|done]. by intros [= <-]. Qed.

Lemma add_size r db : size (add r db).1 = S (size db).
Proof.
  unfold add. destruct (add_item (m_stash db) r) as [st hd].
  unfold size. simpl. rewrite length_app. simpl. lia.
Qed.

Lemma remove_size p db db' : remove p db = Done db' → size db' = size db.
Proof.
  unfold remove. destruct (m_elements db !! p) as [elem|]; [|done].
  destruct (remove_item (m_stash db) (handle elem)) as [st| | |]; [|done..].
  intros [= <-]. unfold size. simpl. by rewrite length_insert.
Qed.

Lemma counter_operation_changes h db db' :
  (∃ v, set_members v h db = Done db') ∨ increment_members h db = Done db'
    ∨ decrement_members h db = Done db' →
  only_counter_changed (pos h) db db'.
Proof.
  unfold set_members, increment_members, decrement_members. fold (pos h).
  intros [[v Hs]|[Hi|Hd]].
  - by eapply store_members_frame.
  - destruct (load_members (pos h) db) as [m| | |]; [|done..].
    by eapply store_members_frame.
  - destruct (load_members (pos h) db) as [m| | |]; [|done..].
    simpl in Hd. case_decide; [|done]. by eapply store_members_frame.
Qed.

Lemma step_size o db db' :
  step o db = Done db' →
  size db' = ((if is_add o then 1 else 0) + size db)%nat.
Proof.
  destruct o as [r|p v|p|p|p]; simpl.
  - intros [= <-]. apply add_size.
  - destruct (operator_index p db) as [h| | |]; [|done..]. simpl.
    intros Hs. eapply counter_operation_changes. eauto.
  - destruct (operator_index p db) as [h| | |]; [|done..]. simpl.
    intros Hs. eapply counter_operation_changes. eauto.
  - destruct (operator_index p db) as [h| | |]; [|done..]. simpl.
    intros Hs. eapply counter_operation_changes. eauto.
  - destruct (operator_index p db) as [h| | |]; [|done..]. simpl.
    apply remove_size.
Qed.

Lemma run_size ops db db' :
  run ops db = Done db' → size db' = (count_adds ops + size db)%nat.
Proof.
  revert db. induction ops as [|o ops IH]; intros db.
  - by intros [= <-].
  - simpl. destruct (step o db) as [db1| | |] eqn:Hs; [|done..]. simpl.
    intros Hr. rewrite (IH _ Hr), (step_size _ _ _ Hs), count_adds_cons. lia.
Qed.

(** C4. Whatever sequence of [add], [set_members], [increment_members],
    [decrement_members] and [remove] calls has run on a new database,
    [size()] is the number of [add] calls in it, however many [remove]
    calls there were; so over a sequence that is run further, every
    earlier [size()] is at most the later one. *)
Theorem size_counts_adds (st : stash) ops1 ops2 db2 :
  run (ops1 ++ ops2) (new_database st) = Done db2 →
  size db2 = count_adds (ops1 ++ ops2)
  ∧ ∃ db1, run ops1 (new_database st) = Done db1
      ∧ size db1 = count_adds ops1
      ∧ (size db1 ≤ size db2)%nat.
Proof.
  intros Hrun. split.
  - rewrite (run_size _ _ _ Hrun). unfold size. simpl. lia.
  - rewrite run_app in Hrun.
    destruct (run ops1 (new_database st)) as [db1| | |] eqn:H1; [|done..].
    simpl in Hrun. exists db1. split; [done|].
    rewrite (run_size _ _ _ Hrun), (run_size _ _ _ H1).
    unfold size. simpl. lia.
Qed.

Lemma filter_length_insert {A} (f : A → bool) (l : list A) p x y :
  l !! p = Some x →
  (length (filter (λ a, Is_true (f a)) (<[p := y]> l))
     + (if f x then 1 else 0)
   = length (filter (λ a, Is_true (f a)) l) + (if f y then 1 else 0))%nat.
Proof.
  revert p. induction l as [|a l IH]; intros p; [done|].
  destruct p as [|p]; simpl.
  - intros [= ->]. rewrite !filter_cons.
    destruct (f x), (f y); repeat case_decide; simpl in *; try done; lia.
  - intros Hl. specialize (IH _ Hl). rewrite !filter_cons.
    destruct (f a); repeat case_decide; simpl in *; try done; lia.
Qed.

Lemma store_members_count p v db db' :
  store_members p v db = Done db' → count_relations db' = count_relations db.
Proof.
  unfold store_members.
  destruct (m_elements db !! p) as [e|] eqn:He; [|done].
  intros [= <-]. unfold count_relations. simpl.
  pose proof (filter_length_insert (λ elem, valid (handle elem))
                (m_elements db) p e {| handle := handle e; members := v |} He)
    as Hc.
  simpl in Hc. destruct (valid (handle e)); lia.
Qed.

Lemma counter_operation_count h db db' :
  (∃ v, set_members v h db = Done db') ∨ increment_members h db = Done db'
    ∨ decrement_members h db = Done db' →
  count_relations db' = count_relations db.
Proof.
  unfold set_members, increment_members, decrement_members.
  intros [[v Hs]|[Hi|Hd]].
  - by eapply store_members_count.
  - destruct (load_members (m_pos h) db) as [m| | |]; [|done..].
    by eapply store_members_count.
  - destruct (load_members (m_pos h) db) as [m| | |]; [|done..].
    simpl in Hd. case_decide; [|done]. by eapply store_members_count.
Qed.

Lemma filter_ext_in {A} (P Q : A → Prop) `{!∀ x, Decision (P x)}
    `{!∀ x, Decision (Q x)} (l : list A) :
  (∀ x, x ∈ l → P x ↔ Q x) → filter P l = filter Q l.
Proof.
  induction l as [|a l IH]; intros HPQ; [done|].
  rewrite !filter_cons.
  assert (Ha : P a ↔ Q a) by (apply HPQ; left).
  rewrite IH by (intros x Hx; apply HPQ; by right).
  repeat case_decide; tauto.
Qed.

Lemma count_relations_live db :
  count_relations db =
    length (filter (λ p, Is_true (live db p)) (seq 0 (size db))).
Proof.
  destruct db as [st l]. unfold count_relations, live, size. simpl.
  induction l as [|x l IH] using rev_ind; [done|].
  rewrite length_app. simpl. rewrite Nat.add_1_r, seq_S. simpl.
  rewrite !filter_app, !length_app, IH. f_equal.
  - f_equal. apply filter_ext_in. intros p Hp.
    apply elem_of_seq in Hp. rewrite lookup_app_l by lia. done.
  - rewrite !filter_cons, !filter_nil, list_lookup_middle by done.
    destruct (valid (handle x)); by repeat case_decide.
Qed.

Section StashLaws.
Hypothesis default_invalid : default_handle_invalid.
Hypothesis added_valid : add_item_valid.
Hypothesis remove_checks : remove_item_checks_handle.

Lemma add_count r db :
  count_relations (add r db).1 = S (count_relations db).
Proof.
  pose proof (added_valid (m_stash db) r) as Hv.
  unfold add. destruct (add_item (m_stash db) r) as [st hd].
  unfold count_relations. simpl in *.
  rewrite filter_app, length_app, filter_cons. simpl.
  rewrite decide_True by (by rewrite Hv). simpl. lia.
Qed.

Lemma remove_count p db db' :
  remove p db = Done db' → S (count_relations db') = count_relations db.
Proof.
  unfold remove. destruct (m_elements db !! p) as [elem|] eqn:He; [|done].
  destruct (remove_item (m_stash db) (handle elem)) as [st| | |] eqn:Hr;
    [|done..].
  intros [= <-]. unfold count_relations. simpl.
  pose proof (filter_length_insert (λ elem, valid (handle elem))
                (m_elements db) p elem
                {| handle := default_handle; members := 0 |} He) as Hc.
  simpl in Hc. rewrite (remove_checks _ _ _ Hr) in Hc.
  unfold default_handle_invalid in default_invalid.
  rewrite default_invalid in Hc. lia.
Qed.

Lemma step_count o db db' :
  step o db = Done db' →
  ((if is_remove o then 1 else 0) + count_relations db'
   = (if is_add o then 1 else 0) + count_relations db)%nat.
Proof.
  destruct o as [r|p v|p|p|p]; simpl.
  - intros [= <-]. apply add_count.
  - destruct (operator_index p db) as [h| | |]; [|done..]. simpl.
    intros Hs. eapply counter_operation_count. eauto.
  - destruct (operator_index p db) as [h| | |]; [|done..]. simpl.
    intros Hs. eapply counter_operation_count. eauto.
  - destruct (operator_index p db) as [h| | |]; [|done..]. simpl.
    intros Hs. eapply counter_operation_count. eauto.
  - destruct (operator_index p db) as [h| | |]; [|done..]. simpl.
    apply remove_count.
Qed.

Lemma run_count ops db db' :
  run ops db = Done db' →
  (count_removes ops + count_relations db'
   = count_adds ops + count_relations db)%nat.
Proof.
  revert db. induction ops as [|o ops IH]; intros db.
  - by intros [= <-].
  - simpl. destruct (step o db) as [db1| | |] eqn:Hs; [|done..]. simpl.
    intros Hr. pose proof (IH _ Hr). pose proof (step_count _ _ _ Hs).
    rewrite count_adds_cons, count_removes_cons. lia.
Qed.

(** C5. With a stash whose default handle is invalid, which issues valid
    handles and which refuses to release an invalid one: after every
    sequence of calls that has run on a new database, [count_relations()],
    the number of slots whose payload handle is valid, is [size()] minus
    the number of [remove()] calls of the sequence. *)
Theorem count_relations_is_size_minus_removes (st : stash) ops db :
  run ops (new_database st) = Done db →
  count_relations db = (size db - count_removes ops)%nat
  ∧ (count_removes ops ≤ size db)%nat
  ∧ count_relations db =
      length (filter (λ p, Is_true (live db p)) (seq 0 (size db))).
Proof.
  intros Hrun. pose proof (run_count _ _ _ Hrun) as Hc.
  pose proof (run_size _ _ _ Hrun) as Hs.
  change (count_relations (new_database st)) with 0%nat in Hc.
  change (size (new_database st)) with 0%nat in Hs.
  split; [lia|]. split; [lia|].
  apply count_relations_live.
Qed.

End StashLaws.

(** ** Growth *)

Lemma add_lookup r db p e :
  m_elements db !! p = Some e → m_elements (add r db).1 !! p = Some e.
Proof.
  intros He. unfold add. destruct (add_item (m_stash db) r) as [st hd].
  simpl. by apply lookup_app_l_Some.
Qed.

Lemma add_stash r db : m_stash (add r db).1 = (add_item (m_stash db) r).1.
Proof. unfold add. by destruct (add_item (m_stash db) r). Qed.

Lemma add_all_lookup rs db p e :
  m_elements db !! p = Some e → m_elements (add_all rs db) !! p = Some e.
Proof.
  revert db. induction rs as [|r rs IH]; intros db He; [done|].
  simpl. apply IH. by apply add_lookup.
Qed.

Lemma add_all_size rs db : size (add_all rs db) = (length rs + size db)%nat.
Proof.
  revert db. induction rs as [|r rs IH]; intros db; [done|].
  simpl. fold (add_all rs (add r db).1). rewrite IH, add_size. lia.
Qed.

Lemma add_all_get rs db hd rel :
  handles_stable →
  get (m_stash db) hd = Done rel →
  get (m_stash (add_all rs db)) hd = Done rel.
Proof.
  intros Hstable. revert db. induction rs as [|r rs IH]; intros db Hg; [done|].
  simpl. apply IH. rewrite add_stash. by apply Hstable.
Qed.

(** C8. With a stash whose handles are stable: for a position that holds a
    slot, after any number of further [add] calls the slot at that
    position is the same element, with the same payload handle and the
    same counter; [operator[]] accepts the position, the counter and
    [has_all_members()] read as before, and a payload that
    [get_relation] resolved before the calls it resolves after them. *)
Theorem add_keeps_positions rs db p e :
  handles_stable →
  m_elements db !! p = Some e →
  m_elements (add_all rs db) !! p = Some e
  ∧ operator_index p (add_all rs db) = Done {| m_pos := p |}
  ∧ load_members p (add_all rs db) = load_members p db
  ∧ has_all_members {| m_pos := p |} (add_all rs db) =
      has_all_members {| m_pos := p |} db
  ∧ ∀ rel, get_relation p db = Done rel →
      get_relation p (add_all rs db) = Done rel.
Proof.
  intros Hstable He.
  pose proof (add_all_lookup rs _ _ _ He) as He'.
  assert (Hp : (p < size db)%nat) by (by eapply lookup_lt_Some).
  assert (Hp' : (p < size (add_all rs db))%nat)
    by (rewrite add_all_size; lia).
  split; [done|]. split; [|split; [|split]].
  - unfold operator_index. by rewrite decide_True.
  - by rewrite (load_members_Some _ _ _ He'), (load_members_Some _ _ _ He).
  - by rewrite (has_all_members_Some {| m_pos := p |} _ _ He'),
      (has_all_members_Some {| m_pos := p |} _ _ He).
  - intros rel. unfold get_relation.
    rewrite !decide_True, He, He' by done. by apply add_all_get.
Qed.

(** ** Iteration *)

Lemma for_each_relation_from_end {A} fuel (func : callback A) p a db :
  (size db ≤ p)%nat → for_each_relation_from fuel func p a db = Done (a, db).
Proof. intros Hp. destruct fuel; simpl; by rewrite decide_False by lia. Qed.

Lemma live_positions_from_end db p :
  (size db ≤ p)%nat → live_positions_from db p = [].
Proof.
  intros Hp. unfold live_positions_from.
  by replace (size db - p)%nat with 0%nat by lia.
Qed.

Lemma live_positions_from_step db p :
  (p < size db)%nat →
  live_positions_from db p =
    if live db p then p :: live_positions_from db (p + 1)
    else live_positions_from db (p + 1).
Proof.
  intros Hp. unfold live_positions_from.
  replace (size db - p)%nat with (S (size db - (p + 1))) by lia.
  simpl. rewrite filter_cons, Nat.add_1_r.
  destruct (live db p); by case_decide.
Qed.

Lemma live_positions_from_ext db db' p :
  size db' = size db →
  (∀ q, (p ≤ q)%nat → live db' q = live db q) →
  live_positions_from db' p = live_positions_from db p.
Proof.
  intros Hsz Hlive. unfold live_positions_from. rewrite Hsz.
  apply filter_ext_in. intros q Hq. apply elem_of_seq in Hq.
  rewrite Hlive by lia. done.
Qed.

Lemma live_positions_from_spec db p q :
  q ∈ live_positions_from db p ↔
    (p ≤ q)%nat ∧ (q < size db)%nat ∧ live db q = true.
Proof.
  unfold live_positions_from.
  rewrite list_elem_of_filter, elem_of_seq, Is_true_true.
  split; intros; split_and?; try tauto; lia.
Qed.

Lemma live_positions_from_sorted db p :
  StronglySorted lt (live_positions_from db p).
Proof.
  unfold live_positions_from. generalize (size db - p)%nat as k.
  intros k. revert p. induction k as [|k IH]; intros p; [constructor|].
  simpl. rewrite filter_cons. case_decide; [|apply IH].
  apply StronglySorted_cons. split; [|apply IH].
  apply Forall_forall. intros q Hq.
  apply list_elem_of_filter in Hq as [_ Hq]. apply elem_of_seq in Hq. lia.
Qed.

Lemma visit_all_record_position ps log db :
  visit_all record_position ps log db = Done (log ++ ps, db).
Proof.
  revert log. induction ps as [|p ps IH]; intros log; simpl.
  - by rewrite app_nil_r.
  - rewrite IH. unfold pos. simpl. by rewrite <- app_assoc.
Qed.

Section ForEach.
Context {A : Type} (func : callback A).
Context (Inv : A → RelationsDatabase → Prop).

(** What the loop needs of the callback: on a live slot of a database that
    satisfies [Inv] it returns, keeps [Inv] and [size()], and leaves the
    validity of the handles at the later positions as it was.  It may
    change the counters, and it may remove the relation it is given. *)
Hypothesis func_ok : ∀ h a db,
  Inv a db → (pos h < size db)%nat → live db (pos h) = true →
  ∃ a' db', func h a db = Done (a', db') ∧ Inv a' db'
    ∧ size db' = size db
    ∧ ∀ q, (pos h < q)%nat → live db' q = live db q.

Lemma for_each_relation_from_visits fuel p a db :
  Inv a db → (size db - p ≤ fuel)%nat →
  for_each_relation_from fuel func p a db =
    visit_all func (live_positions_from db p) a db
  ∧ ∃ a' db', visit_all func (live_positions_from db p) a db = Done (a', db')
      ∧ Inv a' db' ∧ size db' = size db.
Proof.
  revert p a db. induction fuel as [|fuel IH]; intros p a db HI Hfuel.
  - rewrite for_each_relation_from_end, live_positions_from_end by lia.
    simpl. split; [done|]. by exists a, db.
  - destruct (decide (p < size db)%nat) as [Hp|Hp]; cycle 1.
    { rewrite for_each_relation_from_end, live_positions_from_end by lia.
      simpl. split; [done|]. by exists a, db. }
    simpl. rewrite decide_True by done.
    destruct (lookup_in_range _ _ Hp) as [e He]. rewrite He.
    rewrite live_positions_from_step by done.
    rewrite (live_lookup _ _ _ He).
    destruct (valid (handle e)) eqn:Hv.
    + destruct (func_ok {| m_pos := p |} a db HI Hp)
        as (a' & db' & Hf & HI' & Hsz & Hlive).
      { unfold pos. simpl. by rewrite (live_lookup _ _ _ He). }
      simpl. rewrite Hf. simpl.
      destruct (IH (p + 1)%nat a' db' HI') as [Heq Hex]; [lia|].
      assert (Hsame : live_positions_from db' (p + 1) =
                      live_positions_from db (p + 1)).
      { apply live_positions_from_ext; [done|].
        intros q Hq. apply Hlive. unfold pos. simpl. lia. }
      rewrite Hsame in Heq, Hex.
      split; [done|]. destruct Hex as (a'' & db'' & ? & ? & ?).
      exists a'', db''. split; [done|]. split; [done|]. congruence.
    + apply IH; [done|lia].
Qed.

End ForEach.

Lemma count_and_increment_ok h (k : nat) db :
  (pos h < size db)%nat →
  ∃ k' db', count_and_increment h k db = Done (k', db')
    ∧ size db' = size db
    ∧ ∀ q, (pos h < q)%nat → live db' q = live db q.
Proof.
  intros Hp. destruct (lookup_in_range _ _ Hp) as [e He].
  unfold count_and_increment, increment_members. fold (pos h).
  rewrite (load_members_Some _ _ _ He). simpl.
  destruct (store_members (pos h) (size_t_inc (members e)) db)
    as [db'| | |] eqn:Hs;
    try (rewrite (store_members_Some _ _ _ _ He) in Hs; discriminate).
  destruct (store_members_frame _ _ _ _ Hs) as (_ & Hsz & _ & Hothers).
  exists (S k), db'. split; [done|]. split; [done|].
  intros q Hq. unfold live. rewrite Hothers by lia. done.
Qed.

(** C7. For a callback that, on a live slot, returns, keeps [size()] and
    leaves the validity of the handles at the later positions alone (it
    may remove the relation it is given): [for_each_relation], given at
    least [size()] rounds of fuel, returns, and
    it is the callback called on the handles of the positions whose
    payload handle is valid, each once, one after the other in ascending
    order, and on no other position.  In particular the positions a
    recording callback is called with are exactly those positions, in
    strictly ascending order. *)
Theorem for_each_relation_visits_live {A} (func : callback A)
    (Inv : A → RelationsDatabase → Prop) (fuel : nat) a db :
  (∀ h a db,
     Inv a db → (pos h < size db)%nat → live db (pos h) = true →
     ∃ a' db', func h a db = Done (a', db') ∧ Inv a' db'
       ∧ size db' = size db
       ∧ ∀ q, (pos h < q)%nat → live db' q = live db q) →
  Inv a db → (size db ≤ fuel)%nat →
  for_each_relation fuel func a db =
    visit_all func (live_positions db) a db
  ∧ (∃ a' db', for_each_relation fuel func a db = Done (a', db')
       ∧ Inv a' db' ∧ size db' = size db)
  ∧ for_each_relation fuel record_position [] db =
      Done (live_positions db, db)
  ∧ StronglySorted lt (live_positions db)
  ∧ NoDup (live_positions db)
  ∧ ∀ p, p ∈ live_positions db ↔ (p < size db)%nat ∧ live db p = true.
Proof.
  intros Hok HI Hfuel. unfold for_each_relation, live_positions.
  destruct (for_each_relation_from_visits func Inv Hok fuel 0 a db HI)
    as [Heq Hex]; [lia|].
  split; [done|]. split; [by rewrite Heq|]. split; [|split; [|split]].
  - destruct (for_each_relation_from_visits record_position (λ _ _, True)
                (λ h a0 db0 _ _ _,
                   ex_intro _ (a0 ++ [pos h])
                     (ex_intro _ db0
                        (conj eq_refl (conj I (conj eq_refl
                           (λ _ _, eq_refl))))))
                fuel 0 [] db I) as [Hrec _]; [lia|].
    rewrite Hrec. apply visit_all_record_position.
  - apply live_positions_from_sorted.
  - unfold live_positions_from. apply NoDup_filter, NoDup_seq.
  - intros p. rewrite live_positions_from_spec. intuition lia.
Qed.

End Properties.

(** * The concrete stash, and the theorems at concrete inputs *)

Lemma vector_stash_default_invalid :
  default_handle_invalid (H := vector_stash).
Proof. reflexivity. Qed.

Lemma vector_stash_add_valid : add_item_valid (H := vector_stash).
Proof.
  intros st r. simpl. apply negb_true_iff, N.eqb_neq. lia.
Qed.

Lemma vector_stash_remove_checks :
  remove_item_checks_handle (H := vector_stash).
Proof.
  intros st h st'. simpl. unfold vector_stash_entry.
  case_decide; [done|]. intros _. by apply negb_true_iff, N.eqb_neq.
Qed.

Lemma vector_stash_stable : handles_stable (H := vector_stash).
Proof.
  assert (Happ : ∀ (st : list (option Z)) (x : option Z) (h : N) (rel : Z),
            vector_stash_entry st h = Some rel →
            vector_stash_entry (st ++ [x]) h = Some rel).
  { intros st x h rel. unfold vector_stash_entry. case_decide; [done|].
    destruct (st !! (N.to_nat h - 1)%nat) as [o|] eqn:Hl; [|done].
    by rewrite (lookup_app_l_Some _ _ _ _ Hl). }
  intros st r h rel. simpl.
  destruct (vector_stash_entry st h) as [r'|] eqn:He; [|done].
  intros [= ->]. by rewrite (Happ _ _ _ _ He).
Qed.

(** Scenario B of the spec on the model: after the first relation became
    complete and was removed, two relations are counted and the iteration
    visits the positions 1 and 2. *)
Example removal_scenario :
  run (ops_waiting ++ ops_completed) (new_database (H := vector_stash) [])
    = Done db_after_removal
  ∧ count_relations db_after_removal = 2%nat
  ∧ size db_after_removal = 3%nat
  ∧ live_positions db_after_removal = [1; 2]%nat
  ∧ run [Remove 0] db_after_removal = AssertionFailed.
Proof. vm_compute. done. Qed.

(** Relations removed by the callback while the iteration runs: every
    position is still visited once, in order. *)
Example removal_during_iteration :
  for_each_relation 3 remove_if_complete [] db_three
  ≫= (λ '(log, db), mret (log, count_relations db, size db))
  = Done ([0; 1; 2]%nat, 0%nat, 3%nat).
Proof. vm_compute. done. Qed.

(** [decrement_to_completion] on the second of three relations, with two
    members to wait for. *)
Lemma decrement_to_completion_witness :
  ∃ db0, set_members 2 {| m_pos := 1 |} db_three = Done db0
    ∧ (∀ k, (k < N.to_nat 2)%nat →
         ∃ dbk, decrement_times k {| m_pos := 1 |} db0 = Done dbk
           ∧ has_all_members {| m_pos := 1 |} dbk = Done false)
    ∧ (∃ dbn, decrement_times (N.to_nat 2) {| m_pos := 1 |} db0 = Done dbn
           ∧ has_all_members {| m_pos := 1 |} dbn = Done true
           ∧ decrement_members {| m_pos := 1 |} dbn = AssertionFailed)
    ∧ decrement_times (S (N.to_nat 2)) {| m_pos := 1 |} db0
        = AssertionFailed.
Proof.
  apply (decrement_to_completion (H := vector_stash)
           {| m_pos := 1 |} db_three 2).
  - vm_compute. lia.
  - reflexivity.
Defined.

(** [decrement_members_at_zero_fails] on a relation just added. *)
Lemma decrement_members_at_zero_fails_witness :
  decrement_members {| m_pos := 1 |} db_three = AssertionFailed
  ∧ ∀ db', decrement_members {| m_pos := 1 |} db_three ≠ Done db'.
Proof.
  apply (decrement_members_at_zero_fails (H := vector_stash)
           {| m_pos := 1 |} db_three (Build_element (H := vector_stash) 2 0));
    reflexivity.
Defined.

(** [size_counts_adds] on a run with a removal in it. *)
Lemma size_counts_adds_witness :
  size db_after_removal = count_adds (ops_waiting ++ ops_completed)
  ∧ ∃ db1, run ops_waiting (new_database (H := vector_stash) []) = Done db1
      ∧ size db1 = count_adds ops_waiting
      ∧ (size db1 ≤ size db_after_removal)%nat.
Proof.
  apply (size_counts_adds (H := vector_stash) []
           ops_waiting ops_completed db_after_removal).
  reflexivity.
Defined.

(** [count_relations_is_size_minus_removes] on the same run, with the
    concrete stash. *)
Lemma count_relations_is_size_minus_removes_witness :
  count_relations db_after_removal =
    (size db_after_removal
     - count_removes (ops_waiting ++ ops_completed))%nat
  ∧ (count_removes (ops_waiting ++ ops_completed)
     ≤ size db_after_removal)%nat
  ∧ count_relations db_after_removal =
      length (filter (λ p, Is_true (live db_after_removal p))
                (seq 0 (size db_after_removal))).
Proof.
  apply (count_relations_is_size_minus_removes (H := vector_stash)
           vector_stash_default_invalid vector_stash_add_valid
           vector_stash_remove_checks []
           (ops_waiting ++ ops_completed) db_after_removal).
  reflexivity.
Defined.

(** [remove_resets_slot] on the second of three relations. *)
Lemma remove_resets_slot_witness :
  ∃ elem, m_elements db_three !! 1%nat = Some elem
    ∧ handle_remove {| m_pos := 1 |} db_three = remove 1 db_three
    ∧ ∀ st, remove_item (m_stash db_three) (handle elem) = Done st →
        ∃ db', remove 1 db_three = Done db'
          ∧ m_stash db' = st
          ∧ m_elements db' !! 1%nat =
              Some {| handle := default_handle; members := 0 |}
          ∧ live db' 1 = false
          ∧ load_members 1 db' = Done 0
          ∧ size db' = size db_three
          ∧ (1 < size db')%nat
          ∧ operator_index 1 db' = Done {| m_pos := 1 |}
          ∧ ∀ q, q ≠ 1%nat → m_elements db' !! q = m_elements db_three !! q.
Proof.
  apply (remove_resets_slot (H := vector_stash) {| m_pos := 1 |} db_three).
  - reflexivity.
  - vm_compute. lia.
Defined.

(** [for_each_relation_visits_live] with a callback that changes the
    database, on a database with a removed slot. *)
Lemma for_each_relation_visits_live_witness :
  for_each_relation 3 count_and_increment 0%nat db_after_removal =
    visit_all count_and_increment (live_positions db_after_removal) 0%nat
      db_after_removal
  ∧ (∃ k' db', for_each_relation 3 count_and_increment 0%nat
                 db_after_removal = Done (k', db')
       ∧ True ∧ size db' = size db_after_removal)
  ∧ for_each_relation 3 record_position [] db_after_removal =
      Done (live_positions db_after_removal, db_after_removal)
  ∧ StronglySorted lt (live_positions db_after_removal)
  ∧ NoDup (live_positions db_after_removal)
  ∧ ∀ p, p ∈ live_positions db_after_removal ↔
      (p < size db_after_removal)%nat ∧ live db_after_removal p = true.
Proof.
  apply (for_each_relation_visits_live (H := vector_stash)
           count_and_increment (λ _ _, True) 3 0%nat db_after_removal).
  - intros h k db _ Hp _.
    destruct (count_and_increment_ok h k db Hp) as (k' & db' & ? & ? & ?).
    by exists k', db'.
  - exact I.
  - vm_compute. lia.
Defined.

(** [add_keeps_positions]: two more relations added to three. *)
Lemma add_keeps_positions_witness :
  m_elements (add_all (H := vector_stash) [40%Z; 50%Z] db_three) !! 1%nat
    = Some (Build_element (H := vector_stash) 2 0)
  ∧ operator_index 1 (add_all (H := vector_stash) [40%Z; 50%Z] db_three)
      = Done {| m_pos := 1 |}
  ∧ load_members 1 (add_all (H := vector_stash) [40%Z; 50%Z] db_three)
      = load_members 1 db_three
  ∧ has_all_members {| m_pos := 1 |}
        (add_all (H := vector_stash) [40%Z; 50%Z] db_three)
      = has_all_members {| m_pos := 1 |} db_three
  ∧ ∀ rel, get_relation 1 db_three = Done rel →
      get_relation 1 (add_all (H := vector_stash) [40%Z; 50%Z] db_three)
        = Done rel.
Proof.
  apply (add_keeps_positions (H := vector_stash) [40%Z; 50%Z] db_three 1
           (Build_element (H := vector_stash) 2 0)).
  - exact vector_stash_stable.
  - reflexivity.
Defined.

(** [increment_then_decrement_restores] on a counter that is 0. *)
Lemma increment_then_decrement_restores_witness :
  (increment_members {| m_pos := 1 |} db_three
     ≫= decrement_members {| m_pos := 1 |}) = Done db_three
  ∧ ((increment_members {| m_pos := 1 |} db_three
        ≫= decrement_members {| m_pos := 1 |})
       ≫= load_members 1) = load_members 1 db_three
  ∧ ((increment_members {| m_pos := 1 |} db_three
        ≫= decrement_members {| m_pos := 1 |})
       ≫= has_all_members {| m_pos := 1 |})
      = has_all_members {| m_pos := 1 |} db_three.
Proof.
  apply (increment_then_decrement_restores (H := vector_stash)
           {| m_pos := 1 |} db_three (Build_element (H := vector_stash) 2 0));
    reflexivity.
Defined.

(** C9, as stated, fails.  After [add] and [set_members] with the largest
    [std::size_t], the position 0 is below [size()];
    [increment_members()] wraps the counter to 0 and
    [decrement_members()] then fails its assertion, so the pair of calls
    does not give the counter its old value back. *)
Lemma increment_then_decrement_at_max :
  (∃ db, db_at_max = Done db
     ∧ (pos {| m_pos := 0 |} < size db)%nat
     ∧ load_members 0 db = Done size_t_max
     ∧ (increment_members {| m_pos := 0 |} db
          ≫= has_all_members {| m_pos := 0 |}) = Done true
     ∧ (increment_members {| m_pos := 0 |} db
          ≫= decrement_members {| m_pos := 0 |}) = AssertionFailed)
  ∧ ¬ (∀ (db : @RelationsDatabase vector_stash) (h : RelationHandle),
         (pos h < size db)%nat →
         ∃ db', (increment_members h db ≫= decrement_members h) = Done db'
           ∧ load_members (pos h) db' = load_members (pos h) db).
Proof.
  split.
  - eexists. split; [reflexivity|]. vm_compute. repeat split. lia.
  - intros Hclaim.
    destruct (Hclaim
                (Build_RelationsDatabase (H := vector_stash) [Some 7%Z]
                   [Build_element (H := vector_stash) 1 size_t_max])
                {| m_pos := 0 |}) as (db' & Hrun & _).
    + vm_compute. lia.
    + vm_compute in Hrun. discriminate.
Qed.

(** [counter_operations_frame] on the second of three relations. *)
Lemma counter_operations_frame_witness :
  (∀ v, ∃ db', set_members v {| m_pos := 1 |} db_three = Done db'
      ∧ only_counter_changed 1 db_three db')
  ∧ (∃ db', increment_members {| m_pos := 1 |} db_three = Done db'
      ∧ only_counter_changed 1 db_three db')
  ∧ (∀ db', decrement_members {| m_pos := 1 |} db_three = Done db' →
      only_counter_changed 1 db_three db').
Proof.
  apply (counter_operations_frame (H := vector_stash)
           {| m_pos := 1 |} db_three).
  vm_compute. lia.
Defined.

(** * Further properties of the database and its handles *)

Section MoreProperties.
Context `{ItemStash}.
Implicit Types (db : RelationsDatabase) (h : RelationHandle) (e : element).
Implicit Types (p q : nat) (v w n : size_t).

Lemma add_pos (r : Relation) db : (add r db).2 = {| m_pos := size db |}.
Proof.
  unfold add. destruct (add_item (m_stash db) r) as [st hd]. simpl.
  f_equal. unfold size. simpl. rewrite length_app. simpl. lia.
Qed.

Lemma operator_index_in_range p db :
  (p < size db)%nat → operator_index p db = Done {| m_pos := p |}.
Proof. intros Hp. unfold operator_index. by rewrite decide_True. Qed.

Lemma operator_index_out_of_range p db :
  (size db ≤ p)%nat → operator_index p db = AssertionFailed.
Proof. intros Hp. unfold operator_index. by rewrite decide_False by lia. Qed.

(** The handle [add] returns and the handle [operator[]] gives for its
    position are the same handle. *)
Theorem handle_position_round_trip (r : Relation) db :
  operator_index (pos (add r db).2) (add r db).1 = Done (add r db).2.
Proof.
  rewrite add_pos. unfold pos. simpl.
  apply operator_index_in_range. rewrite add_size. lia.
Qed.

(** After a run on a new database, [operator[]] accepts exactly the
    positions below the number of [add] calls of the run; on any other
    position it and [get_relation] fail their assertion. *)
Theorem operator_index_accepts_added (st : stash) ops db p :
  run ops (new_database st) = Done db →
  ((p < count_adds ops)%nat → operator_index p db = Done {| m_pos := p |})
  ∧ ((count_adds ops ≤ p)%nat →
       operator_index p db = AssertionFailed
       ∧ get_relation p db = AssertionFailed).
Proof.
  intros Hrun. pose proof (run_size _ _ _ Hrun) as Hs.
  change (size (new_database st)) with 0%nat in Hs. split; intros Hp.
  - apply operator_index_in_range. lia.
  - split; [apply operator_index_out_of_range; lia|].
    unfold get_relation. by rewrite decide_False by lia.
Qed.

(** With a stash that fetches what was added: dereferencing the handle
    [add] returned gives the relation that was added. *)
Theorem relation_after_add (r : Relation) db :
  get_after_add → relation (add r db).2 (add r db).1 = Done r.
Proof.
  intros Hget. unfold relation, get_relation. rewrite add_pos. simpl.
  rewrite decide_True by (rewrite add_size; lia).
  specialize (Hget (m_stash db) r).
  unfold add. destruct (add_item (m_stash db) r) as [st hd]. simpl in *.
  unfold size. by rewrite list_lookup_middle.
Qed.

(** A position [operator[]] accepts it accepts, with the same handle,
    after any further calls, removals included. *)
Theorem operator_index_after_run p db h ops db' :
  operator_index p db = Done h → run ops db = Done db' →
  operator_index p db' = Done h.
Proof.
  intros Hh Hrun. apply operator_index_Done in Hh as [-> Hp].
  apply operator_index_in_range. rewrite (run_size _ _ _ Hrun). lia.
Qed.

(** [set_members(value)] overwrites: on a handle of the database it
    succeeds, the counter then reads [value] whatever it was and whatever
    was set before, and [has_all_members()] holds exactly when [value] is
    0. *)
Theorem set_members_overwrites h db v w :
  (pos h < size db)%nat →
  ∃ db', set_members v h db = Done db'
    ∧ load_members (pos h) db' = Done v
    ∧ has_all_members h db' = Done (bool_decide (v = 0))
    ∧ (set_members w h db ≫= set_members v h) = Done db'.
Proof.
  intros Hp. destruct (lookup_in_range _ _ Hp) as [e He].
  unfold set_members. fold (pos h).
  rewrite (store_members_Some _ v _ _ He), (store_members_Some _ w _ _ He).
  eexists. split; [done|].
  assert (Hl : ∀ x, <[pos h := {| handle := handle e; members := x |}]>
                      (m_elements db) !! pos h
                    = Some {| handle := handle e; members := x |}).
  { intros x. by apply list_lookup_insert_eq. }
  split; [|split].
  - unfold load_members. simpl. by rewrite Hl.
  - unfold has_all_members, load_members. fold (pos h). simpl.
    by rewrite Hl.
  - simpl. unfold store_members. simpl. rewrite Hl. simpl.
    by rewrite list_insert_insert_eq.
Qed.

Lemma increment_members_Some h db e :
  m_elements db !! pos h = Some e →
  increment_members h db =
    Done {| m_stash := m_stash db;
            m_elements :=
              <[pos h := {| handle := handle e;
                            members := size_t_inc (members e) |}]>
                (m_elements db) |}.
Proof.
  intros He. unfold increment_members. fold (pos h).
  rewrite (load_members_Some _ _ _ He). simpl.
  by rewrite (store_members_Some _ _ _ _ He).
Qed.

(** [increment_members()] called [k] times adds [k] to the counter modulo
    [2^64]: the calls always succeed, and past the largest [std::size_t]
    the counter starts again from 0. *)
Theorem increment_times_counter k h db e :
  m_elements db !! pos h = Some e → members e < size_t_modulus →
  ∃ db', increment_times k h db = Done db'
    ∧ m_elements db' !! pos h =
        Some {| handle := handle e;
                members := (members e + N.of_nat k) mod size_t_modulus |}.
Proof.
  revert db e. induction k as [|k IH]; intros db e He Hlt.
  - exists db. split; [done|]. rewrite He. f_equal.
    rewrite N.add_0_r, N.mod_small by done. by destruct e.
  - simpl increment_times. rewrite (increment_members_Some _ _ _ He). simpl.
    set (db1 := {| m_stash := m_stash db; m_elements := _ |}).
    assert (He1 : m_elements db1 !! pos h =
              Some {| handle := handle e;
                      members := size_t_inc (members e) |}).
    { simpl. apply list_lookup_insert_eq. by eapply lookup_lt_Some. }
    destruct (IH db1 _ He1) as (db' & Hrun & Hl).
    { simpl. unfold size_t_inc. apply N.mod_lt. done. }
    exists db'. split; [done|]. rewrite Hl. simpl. do 2 f_equal.
    unfold size_t_inc.
    rewrite N.Div0.add_mod_idemp_l. f_equal. lia.
Qed.

(** For a counter that is not 0, [decrement_members()] followed by
    [increment_members()] succeeds and gives back the database as it
    was. *)
Theorem decrement_then_increment_restores h db e :
  m_elements db !! pos h = Some e →
  0 < members e → members e < size_t_modulus →
  (decrement_members h db ≫= increment_members h) = Done db.
Proof.
  intros He Hpos Hlt.
  rewrite (decrement_members_positive _ _ _ He) by done. simpl.
  set (db1 := {| m_stash := m_stash db; m_elements := _ |}).
  assert (He1 : m_elements db1 !! pos h =
            Some {| handle := handle e; members := members e - 1 |}).
  { simpl. apply list_lookup_insert_eq. by eapply lookup_lt_Some. }
  rewrite (increment_members_Some _ _ _ He1). simpl.
  rewrite list_insert_insert_eq.
  rewrite size_t_inc_no_wrap
    by (unfold size_t_max; unfold size_t_modulus in *; lia).
  replace (members e - 1 + 1) with (members e) by lia.
  rewrite element_eta, list_insert_id by done. by destruct db.
Qed.

(** ** Counter operations on different positions *)

Lemma counter_operation_step p (o : operation) :
  is_counter_operation_at p o = true →
  ∃ f : size_t → option size_t, ∀ db,
    step o db =
      if decide (p < size db)%nat then
        match m_elements db !! p with
        | Some e =>
            match f (members e) with
            | Some v =>
                Done {| m_stash := m_stash db;
                        m_elements :=
                          <[p := {| handle := handle e; members := v |}]>
                            (m_elements db) |}
            | None => AssertionFailed
            end
        | None => Undefined
        end
      else AssertionFailed.
Proof.
  destruct o as [r|q v|q|q|q]; simpl; try done;
    intros Hq%bool_decide_eq_true; subst q.
  - exists (λ _, Some v). intros db. unfold operator_index.
    case_decide; [|done]. simpl. unfold set_members, store_members. simpl.
    by destruct (m_elements db !! p).
  - exists (λ m, Some (size_t_inc m)). intros db. unfold operator_index.
    case_decide; [|done]. simpl.
    unfold increment_members, load_members, store_members. simpl.
    by destruct (m_elements db !! p).
  - exists (λ m, if decide (0 < m) then Some (size_t_dec m) else None).
    intros db. unfold operator_index. case_decide; [|done]. simpl.
    unfold decrement_members, load_members, store_members. simpl.
    destruct (m_elements db !! p) as [e|]; [|done]. simpl.
    by case_decide.
Qed.

(** Two counter operations on different positions commute: run in either
    order they end in the same database, or both orders fail. *)
Theorem counter_operations_commute p q (o1 o2 : operation) db :
  p ≠ q →
  is_counter_operation_at p o1 = true →
  is_counter_operation_at q o2 = true →
  run [o1; o2] db = run [o2; o1] db.
Proof.
  intros Hpq [f1 H1]%counter_operation_step [f2 H2]%counter_operation_step.
  simpl. rewrite (H1 db), (H2 db).
  destruct (decide (p < size db)%nat) as [Hp|Hp],
    (decide (q < size db)%nat) as [Hq|Hq].
  - destruct (lookup_in_range _ _ Hp) as [ep Hep].
    destruct (lookup_in_range _ _ Hq) as [eq Heq]. rewrite Hep, Heq.
    destruct (f1 (members ep)) as [v|] eqn:Hf1,
      (f2 (members eq)) as [w|] eqn:Hf2; simpl.
    + rewrite H1, H2. unfold size in *. simpl.
      rewrite !length_insert, !decide_True by done.
      rewrite !list_lookup_insert_ne, Hep, Heq by done. simpl.
      rewrite Hf1, Hf2. simpl. do 2 f_equal. by apply list_insert_insert_ne.
    + rewrite H2. unfold size in *. simpl.
      rewrite length_insert, decide_True by done.
      rewrite list_lookup_insert_ne, Heq by done. simpl. by rewrite Hf2.
    + rewrite H1. unfold size in *. simpl.
      rewrite length_insert, decide_True by done.
      rewrite list_lookup_insert_ne, Hep by done. simpl. by rewrite Hf1.
    + done.
  - destruct (lookup_in_range _ _ Hp) as [ep Hep]. rewrite Hep.
    destruct (f1 (members ep)) as [v|]; simpl; [|done].
    rewrite H2. unfold size in *. simpl.
    by rewrite length_insert, decide_False.
  - destruct (lookup_in_range _ _ Hq) as [eq Heq]. rewrite Heq.
    destruct (f2 (members eq)) as [w|]; simpl; [|done].
    rewrite H1. unfold size in *. simpl.
    by rewrite length_insert, decide_False.
  - done.
Qed.

Lemma counter_step_changes p (o : operation) db db' :
  is_counter_operation_at p o = true → step o db = Done db' →
  only_counter_changed p db db' ∧ count_relations db' = count_relations db.
Proof.
  destruct o as [r|q v|q|q|q]; simpl; try done;
    intros Hq%bool_decide_eq_true; subst q;
    destruct (operator_index p db) as [h| | |] eqn:Hh; try done;
    apply operator_index_Done in Hh as [-> _]; simpl; intros Hs;
    (split; [apply (counter_operation_changes {| m_pos := p |})
            |apply (counter_operation_count {| m_pos := p |})]); eauto.
Qed.

(** A counter operation leaves what every position resolves to alone: for
    every position [get_relation] gives what it gave, the same positions
    are live in the same order, and [count_relations()] is unchanged. *)
Theorem counter_operations_keep_relations p (o : operation) db db' :
  is_counter_operation_at p o = true → step o db = Done db' →
  (∀ q, get_relation q db' = get_relation q db)
  ∧ (∀ q, live db' q = live db q)
  ∧ live_positions db' = live_positions db
  ∧ count_relations db' = count_relations db.
Proof.
  intros Ho Hs.
  destruct (counter_step_changes _ _ _ _ Ho Hs)
    as [(Hst & Hsz & Hhp & Hothers) Hcount].
  assert (Hh : ∀ q, handle <$> m_elements db' !! q
                    = handle <$> m_elements db !! q).
  { intros q. destruct (decide (q = p)) as [->|Hq]; [done|].
    by rewrite Hothers. }
  assert (Hlive : ∀ q, live db' q = live db q).
  { intros q. unfold live. specialize (Hh q).
    destruct (m_elements db' !! q), (m_elements db !! q);
      simpl in Hh; congruence. }
  split; [|split; [done|split; [|done]]].
  - intros q. unfold get_relation. rewrite Hsz, Hst. specialize (Hh q).
    case_decide; [|done].
    destruct (m_elements db' !! q), (m_elements db !! q);
      simpl in Hh; congruence.
  - apply live_positions_from_ext; [done|]. intros q _. apply Hlive.
Qed.

(** ** Removed slots *)

Lemma remove_Done p db db' :
  remove p db = Done db' →
  ∃ elem, m_elements db !! p = Some elem
    ∧ remove_item (m_stash db) (handle elem) = Done (m_stash db')
    ∧ m_elements db' =
        <[p := {| handle := default_handle; members := 0 |}]> (m_elements db).
Proof.
  unfold remove. destruct (m_elements db !! p) as [elem|] eqn:He; [|done].
  destruct (remove_item (m_stash db) (handle elem)) as [st| | |] eqn:Hr;
    [|done..].
  intros [= <-]. by exists elem.
Qed.

Lemma remove_lookup p db db' :
  remove p db = Done db' →
  m_elements db' !! p = Some {| handle := default_handle; members := 0 |}.
Proof.
  intros (elem & He & _ & ->)%remove_Done.
  apply list_lookup_insert_eq. by eapply lookup_lt_Some.
Qed.


(** The counter operations do not look at the payload handle: on a
    removed slot [has_all_members()] is true, [decrement_members()] fails
    its assertion, and [set_members] and [increment_members()] succeed
    and give the removed slot a counter again, its handle staying the
    default one. *)
Theorem counter_operations_on_removed_slot p db db' v :
  remove p db = Done db' →
  has_all_members {| m_pos := p |} db' = Done true
  ∧ decrement_members {| m_pos := p |} db' = AssertionFailed
  ∧ (∃ db'', set_members v {| m_pos := p |} db' = Done db''
       ∧ m_elements db'' !! p =
           Some {| handle := default_handle; members := v |})
  ∧ (∃ db'', increment_members {| m_pos := p |} db' = Done db''
       ∧ m_elements db'' !! p =
           Some {| handle := default_handle; members := 1 |}
       ∧ has_all_members {| m_pos := p |} db'' = Done false).
Proof.
  intros Hl%remove_lookup.
  assert (Hp : (p < length (m_elements db'))%nat)
    by (by eapply lookup_lt_Some).
  split; [|split; [|split]].
  - by rewrite (has_all_members_Some {| m_pos := p |} _ _ Hl).
  - by apply (decrement_members_zero {| m_pos := p |} _ _ Hl).
  - unfold set_members. simpl. rewrite (store_members_Some _ _ _ _ Hl).
    eexists. split; [done|]. simpl. by apply list_lookup_insert_eq.
  - rewrite (increment_members_Some {| m_pos := p |} _ _ Hl).
    eexists. split; [done|]. unfold pos. simpl.
    assert (Hl' : <[p := {| handle := default_handle;
                            members := size_t_inc 0 |}]> (m_elements db')
                    !! p
                  = Some {| handle := default_handle; members := 1 |}).
    { by apply list_lookup_insert_eq. }
    split; [done|].
    unfold has_all_members, load_members. simpl. by rewrite Hl'.
Qed.

(** Dereferencing a removed slot hands the default handle to the stash;
    with a stash whose default handle is invalid and which does not
    resolve an invalid handle, it never gives a relation. *)
Theorem relation_of_removed_slot p db db' :
  default_handle_invalid → get_checks_handle →
  remove p db = Done db' →
  relation {| m_pos := p |} db' = get (m_stash db') default_handle
  ∧ ∀ r, relation {| m_pos := p |} db' ≠ Done r.
Proof.
  intros Hdef Hchk Hl%remove_lookup.
  assert (Heq : relation {| m_pos := p |} db'
                = get (m_stash db') default_handle).
  { unfold relation, get_relation. simpl. rewrite Hl.
    rewrite decide_True; [done|]. by eapply lookup_lt_Some. }
  split; [done|]. intros r. rewrite Heq. intros Hr%Hchk.
  unfold default_handle_invalid in Hdef. congruence.
Qed.

(** ** Iteration and counting *)

(** [count_relations()] is the number of calls [for_each_relation] makes:
    a recording callback is called on as many positions as
    [count_relations()] says, and that is never more than [size()]. *)
Theorem count_relations_counts_visits (fuel : nat) db :
  (size db ≤ fuel)%nat →
  ∃ log, for_each_relation fuel record_position [] db = Done (log, db)
    ∧ length log = count_relations db
    ∧ (count_relations db ≤ size db)%nat.
Proof.
  intros Hfuel. exists (live_positions db).
  destruct (for_each_relation_from_visits record_position (λ _ _, True)
              (λ h a0 db0 _ _ _,
                 ex_intro _ (a0 ++ [pos h])
                   (ex_intro _ db0
                      (conj eq_refl (conj I (conj eq_refl
                         (λ _ _, eq_refl))))))
              fuel 0 [] db I) as [Hrec _]; [lia|].
  unfold for_each_relation. rewrite Hrec.
  split; [apply visit_all_record_position|].
  unfold live_positions, live_positions_from.
  rewrite Nat.sub_0_r, <- count_relations_live. split; [done|].
  unfold count_relations, size. apply length_filter.
Qed.

Lemma for_each_relation_from_skip {A} (func : callback A) fuel p q a db :
  (p ≤ q)%nat → (q ≤ size db)%nat →
  (∀ j, (p ≤ j < q)%nat → live db j = false) →
  (size db - p ≤ fuel)%nat →
  for_each_relation_from fuel func p a db =
    for_each_relation_from (fuel - (q - p)) func q a db.
Proof.
  revert p. induction fuel as [|fuel IH]; intros p Hpq Hq Hdead Hfuel.
  - by replace q with p by lia.
  - destruct (decide (p = q)) as [->|Hne].
    { by replace (S fuel - (q - q))%nat with (S fuel) by lia. }
    simpl for_each_relation_from at 1.
    rewrite decide_True by lia.
    destruct (lookup_in_range p db) as [e He]; [lia|]. rewrite He.
    pose proof (Hdead p) as Hp. rewrite (live_lookup _ _ _ He) in Hp.
    rewrite Hp by lia.
    rewrite IH; [|lia|done|intros j Hj; apply Hdead; lia|lia].
    f_equal. lia.
Qed.

Lemma live_positions_first db q ps :
  live_positions db = q :: ps →
  (q < size db)%nat ∧ live db q = true
  ∧ ∀ j, (0 ≤ j < q)%nat → live db j = false.
Proof.
  intros Hl.
  assert (Hq : q ∈ live_positions db) by (rewrite Hl; left).
  apply live_positions_from_spec in Hq as (_ & Hq & Hlive).
  split; [done|]. split; [done|]. intros j Hj.
  destruct (live db j) eqn:Hj'; [|done].
  assert (Hin : j ∈ live_positions db).
  { apply live_positions_from_spec. split_and?; [lia..|done]. }
  pose proof (live_positions_from_sorted db 0) as Hs.
  fold (live_positions db) in Hs. rewrite Hl in Hs, Hin.
  apply StronglySorted_cons in Hs as [Hall _].
  apply elem_of_cons in Hin as [->|Hin]; [lia|].
  rewrite Forall_forall in Hall. specialize (Hall _ Hin). lia.
Qed.

(** The first call of the callback is on the first live position, with
    the state and the database untouched, whatever the callback is; and
    when that call fails, the iteration fails in the same way and calls
    nothing else. *)
Theorem for_each_relation_first_call {A} (func : callback A) fuel a db q ps :
  (size db ≤ fuel)%nat → live_positions db = q :: ps →
  for_each_relation fuel func a db =
    (func {| m_pos := q |} a db ≫=
       λ '(a', db'),
         for_each_relation_from (fuel - q - 1) func (q + 1) a' db')
  ∧ ((∀ r, func {| m_pos := q |} a db ≠ Done r) →
     for_each_relation fuel func a db = func {| m_pos := q |} a db).
Proof.
  intros Hfuel (Hq & Hlive & Hdead)%live_positions_first.
  assert (Heq : for_each_relation fuel func a db =
    (func {| m_pos := q |} a db ≫=
       λ '(a', db'),
         for_each_relation_from (fuel - q - 1) func (q + 1) a' db')).
  { unfold for_each_relation.
    rewrite (for_each_relation_from_skip func fuel 0 q) by (done || lia).
    replace (fuel - (q - 0))%nat with (S (fuel - q - 1)) by lia.
    simpl for_each_relation_from at 1. rewrite decide_True by done.
    destruct (lookup_in_range q db Hq) as [e He]. rewrite He.
    rewrite (live_lookup _ _ _ He) in Hlive. by rewrite Hlive. }
  split; [done|]. intros Hfail. rewrite Heq.
  destruct (func {| m_pos := q |} a db) as [r| | |]; [|done..].
  by destruct (Hfail r).
Qed.

(** When no slot is live (an empty database, or every relation removed)
    the callback, whatever it is, is not called. *)
Theorem for_each_relation_nothing_live {A} (func : callback A) fuel a db :
  (size db ≤ fuel)%nat → live_positions db = [] →
  for_each_relation fuel func a db = Done (a, db).
Proof.
  intros Hfuel Hnone. unfold for_each_relation.
  rewrite (for_each_relation_from_skip func fuel 0 (size db)); [|lia..| |lia].
  - apply for_each_relation_from_end. lia.
  - intros j Hj. destruct (live db j) eqn:Hl; [|done].
    assert (Hin : j ∈ live_positions db)
      by (apply live_positions_from_spec; split_and?; [lia..|done]).
    rewrite Hnone in Hin. by apply elem_of_nil in Hin.
Qed.

(** ** Counters stay [std::size_t] values *)



End MoreProperties.

(** * Properties of the counting output *)

Section TestOutputProperties.
Context {double taglist_t member_t : Type}.
Implicit Types (o : @osm_object double taglist_t member_t).
Implicit Types (os : list (@osm_object double taglist_t member_t)).
Implicit Types (out : test_output_t).

Lemma uint64_add_add (x a b : Z) :
  uint64_add (uint64_add x a) b = uint64_add x (a + b).
Proof.
  unfold uint64_add. rewrite Zplus_mod_idemp_l. f_equal. lia.
Qed.

Lemma uint64_add_swap (x a b : Z) :
  uint64_add (uint64_add x a) b = uint64_add (uint64_add x b) a.
Proof. rewrite !uint64_add_add. f_equal. lia. Qed.

Lemma uint64_add_0 (x : Z) :
  (0 ≤ x < uint64_modulus)%Z → uint64_add x 0 = x.
Proof.
  intros Hx. unfold uint64_add. rewrite Z.add_0_r. by apply Z.mod_small.
Qed.

Lemma uint64_add_range (x a : Z) :
  (0 ≤ uint64_add x a < uint64_modulus)%Z.
Proof. unfold uint64_add. by apply Z.mod_pos_bound. Qed.

Lemma output_add_cases o out :
  output_add o out = AssertionFailed ∨ ∃ out', output_add o out = Done out'.
Proof.
  destruct o; simpl; unfold node_add, way_add, relation_add;
    case_decide; simpl; eauto.
Qed.

Lemma output_add_swap o1 o2 out :
  (output_add o1 out ≫= output_add o2) = (output_add o2 out ≫= output_add o1).
Proof.
  destruct o1 as [i ? ? ?|i l1 ?|i m1 ?], o2 as [j ? ? ?|j l2 ?|j m2 ?]; simpl;
    repeat (unfold node_add, way_add, relation_add; case_decide; simpl);
    try done; try lia;
    rewrite ?(uint64_add_swap _ i j);
    try rewrite (uint64_add_swap _ (Z.of_nat (length l1))
                   (Z.of_nat (length l2)));
    try rewrite (uint64_add_swap _ (Z.of_nat (length m1))
                   (Z.of_nat (length m2)));
    done.
Qed.

(** The counters do not depend on the order of the input: the objects of a
    list, handed to the output in any order, give the same counters, or
    fail in every order. *)
Theorem output_add_all_permutation os os' out :
  os ≡ₚ os' → output_add_all os out = output_add_all os' out.
Proof.
  intros Hperm. revert out.
  induction Hperm as [|o os os' _ IH|o1 o2 os|os1 os2 os3 _ IH1 _ IH2];
    intros out.
  - done.
  - simpl. destruct (output_add o out); simpl; auto.
  - simpl.
    pose proof (output_add_swap o1 o2 out) as Hswap.
    destruct (output_add o2 out) as [out2| | |] eqn:H2,
      (output_add o1 out) as [out1| | |] eqn:H1; simpl in *; try done.
    + by rewrite Hswap.
    + by rewrite <- Hswap.
    + by rewrite <- Hswap.
    + by rewrite <- Hswap.
    + by rewrite Hswap.
    + by rewrite Hswap.
    + by rewrite Hswap.
  - by rewrite IH1.
Qed.

(** An object whose id is not positive, anywhere in the input, makes the
    run fail the assertion [id > 0]. *)
Theorem output_add_all_rejects_id o os out :
  o ∈ os → (object_id o ≤ 0)%Z → output_add_all os out = AssertionFailed.
Proof.
  intros Hin Hid. revert out. induction os as [|x os IH]; intros out.
  - by apply elem_of_nil in Hin.
  - apply elem_of_cons in Hin as [<-|Hin]; simpl.
    + assert (Hfail : output_add o out = AssertionFailed).
      { destruct o; simpl in *; unfold node_add, way_add, relation_add;
          by rewrite decide_False by lia. }
      by rewrite Hfail.
    + destruct (output_add_cases x out) as [->|[out' ->]]; [done|].
      simpl. by apply IH.
Qed.

Lemma output_add_positive o out :
  counters_are_uint64 out → (object_id o > 0)%Z →
  output_add o out =
    Done {| sum_ids := uint64_add (sum_ids out) (total_ids [o]);
            num_nodes := uint64_add (num_nodes out) (count_nodes [o]);
            num_ways := uint64_add (num_ways out) (count_ways [o]);
            num_relations :=
              uint64_add (num_relations out) (count_osm_relations [o]);
            num_nds := uint64_add (num_nds out) (total_nds [o]);
            num_members := uint64_add (num_members out) (total_members [o])
         |}.
Proof.
  intros (? & ? & ? & ? & ? & ?) Hid.
  destruct o; simpl in *; unfold node_add, way_add, relation_add;
    rewrite decide_True by done; simpl;
    rewrite ?Z.add_0_r, ?uint64_add_0 by done; done.
Qed.

(** From counters that are [uint64_t] values, and for objects with positive
    ids, the run succeeds and every counter has grown, modulo [2^64], by
    what the objects add up to: the sum of the ids, the numbers of nodes,
    ways and relations, and the numbers of way nodes and of relation
    members. *)
Theorem output_add_all_totals os out :
  counters_are_uint64 out →
  Forall (λ o, object_id o > 0)%Z os →
  output_add_all os out =
    Done {| sum_ids := uint64_add (sum_ids out) (total_ids os);
            num_nodes := uint64_add (num_nodes out) (count_nodes os);
            num_ways := uint64_add (num_ways out) (count_ways os);
            num_relations :=
              uint64_add (num_relations out) (count_osm_relations os);
            num_nds := uint64_add (num_nds out) (total_nds os);
            num_members := uint64_add (num_members out) (total_members os)
         |}.
Proof.
  intros Hout Hos. revert out Hout.
  induction Hos as [|o os Hid _ IH]; intros out Hout.
  - destruct Hout as (? & ? & ? & ? & ? & ?). simpl.
    rewrite !uint64_add_0 by done. by destruct out.
  - simpl output_add_all. rewrite (output_add_positive _ _ Hout Hid).
    simpl mbind. rewrite IH.
    + simpl. rewrite !uint64_add_add. do 2 f_equal.
      all: f_equal; destruct o; simpl; lia.
    + unfold counters_are_uint64. simpl.
      repeat split; apply uint64_add_range.
Qed.

End TestOutputProperties.

(** * The further properties at concrete inputs *)

Lemma vector_stash_get_after_add : get_after_add (H := vector_stash).
Proof.
  assert (Hentry : ∀ (st : list (option Z)) (r : Z),
            vector_stash_entry (st ++ [Some r]) (N.of_nat (length st) + 1)
            = Some r).
  { intros st r. unfold vector_stash_entry.
    rewrite decide_False by lia.
    replace (N.to_nat (N.of_nat (length st) + 1) - 1)%nat with (length st)
      by lia.
    by rewrite list_lookup_middle. }
  intros st r. simpl. by rewrite Hentry.
Qed.

Lemma vector_stash_get_checks : get_checks_handle (H := vector_stash).
Proof.
  intros st h r. simpl. unfold vector_stash_entry.
  case_decide; [done|]. intros _. by apply negb_true_iff, N.eqb_neq.
Qed.

(** [operator_index_accepts_added] after the run with a removal, at a
    position just past the end. *)
Lemma operator_index_accepts_added_witness :
  ((3 < count_adds (ops_waiting ++ ops_completed))%nat →
   operator_index 3 db_after_removal = Done {| m_pos := 3 |})
  ∧ ((count_adds (ops_waiting ++ ops_completed) ≤ 3)%nat →
       operator_index 3 db_after_removal = AssertionFailed
       ∧ get_relation 3 db_after_removal = AssertionFailed).
Proof.
  apply (operator_index_accepts_added (H := vector_stash) []
           (ops_waiting ++ ops_completed) db_after_removal 3).
  reflexivity.
Defined.

(** [relation_after_add] with the concrete stash. *)
Lemma relation_after_add_witness :
  relation (add (H := vector_stash) 40%Z db_three).2
    (add (H := vector_stash) 40%Z db_three).1 = Done 40%Z.
Proof.
  apply (relation_after_add (H := vector_stash) 40%Z db_three).
  exact vector_stash_get_after_add.
Defined.

(** [operator_index_after_run]: position 0 before and after the run in
    which it is removed. *)
Lemma operator_index_after_run_witness :
  operator_index 0 db_after_removal = Done {| m_pos := 0 |}.
Proof.
  apply (operator_index_after_run (H := vector_stash) 0
           (add (H := vector_stash) 10%Z
              (new_database (H := vector_stash) [])).1
           {| m_pos := 0 |}
           ([Add (H := vector_stash) 20%Z; SetMembers 0 2;
             DecrementMembers 0] ++ ops_completed)
           db_after_removal); reflexivity.
Defined.

(** [set_members_overwrites] on the second of three relations. *)
Lemma set_members_overwrites_witness :
  ∃ db', set_members 5 {| m_pos := 1 |} db_three = Done db'
    ∧ load_members 1 db' = Done 5
    ∧ has_all_members {| m_pos := 1 |} db' = Done (bool_decide (5 = 0))
    ∧ (set_members 7 {| m_pos := 1 |} db_three
         ≫= set_members 5 {| m_pos := 1 |}) = Done db'.
Proof.
  apply (set_members_overwrites (H := vector_stash)
           {| m_pos := 1 |} db_three 5 7).
  vm_compute. lia.
Defined.

(** [increment_times_counter] on a counter at the largest value: two
    increments leave it at 1. *)
Lemma increment_times_counter_witness :
  ∃ db', increment_times 2 {| m_pos := 0 |}
           (Build_RelationsDatabase (H := vector_stash) [Some 7%Z]
              [Build_element (H := vector_stash) 1 size_t_max]) = Done db'
    ∧ m_elements db' !! 0%nat =
        Some (Build_element (H := vector_stash) 1
                ((size_t_max + N.of_nat 2) mod size_t_modulus)).
Proof.
  apply (increment_times_counter (H := vector_stash) 2 {| m_pos := 0 |}
           (Build_RelationsDatabase (H := vector_stash) [Some 7%Z]
              [Build_element (H := vector_stash) 1 size_t_max])
           (Build_element (H := vector_stash) 1 size_t_max));
    reflexivity.
Defined.

(** [decrement_then_increment_restores] at the largest counter value. *)
Lemma decrement_then_increment_restores_witness :
  (decrement_members {| m_pos := 0 |}
     (Build_RelationsDatabase (H := vector_stash) [Some 7%Z]
        [Build_element (H := vector_stash) 1 size_t_max])
   ≫= increment_members {| m_pos := 0 |})
  = Done (Build_RelationsDatabase (H := vector_stash) [Some 7%Z]
            [Build_element (H := vector_stash) 1 size_t_max]).
Proof.
  apply (decrement_then_increment_restores (H := vector_stash)
           {| m_pos := 0 |}
           (Build_RelationsDatabase (H := vector_stash) [Some 7%Z]
              [Build_element (H := vector_stash) 1 size_t_max])
           (Build_element (H := vector_stash) 1 size_t_max));
    reflexivity.
Defined.

(** [counter_operations_commute]: an increment and a failing decrement. *)
Lemma counter_operations_commute_witness :
  run [IncrementMembers 0; DecrementMembers 2] db_three
  = run [DecrementMembers 2; IncrementMembers 0] db_three.
Proof.
  apply (counter_operations_commute (H := vector_stash) 0 2
           (IncrementMembers 0) (DecrementMembers 2) db_three).
  - lia.
  - reflexivity.
  - reflexivity.
Defined.

(** [counter_operations_keep_relations] for a [set_members]. *)
Lemma counter_operations_keep_relations_witness :
  (∀ q, get_relation q
          (Build_RelationsDatabase (H := vector_stash)
             [Some 10%Z; Some 20%Z; Some 30%Z]
             [Build_element (H := vector_stash) 1 0;
              Build_element (H := vector_stash) 2 4;
              Build_element (H := vector_stash) 3 0])
        = get_relation q db_three)
  ∧ (∀ q, live
            (Build_RelationsDatabase (H := vector_stash)
               [Some 10%Z; Some 20%Z; Some 30%Z]
               [Build_element (H := vector_stash) 1 0;
                Build_element (H := vector_stash) 2 4;
                Build_element (H := vector_stash) 3 0]) q
          = live db_three q)
  ∧ live_positions
      (Build_RelationsDatabase (H := vector_stash)
         [Some 10%Z; Some 20%Z; Some 30%Z]
         [Build_element (H := vector_stash) 1 0;
          Build_element (H := vector_stash) 2 4;
          Build_element (H := vector_stash) 3 0])
    = live_positions db_three
  ∧ count_relations
      (Build_RelationsDatabase (H := vector_stash)
         [Some 10%Z; Some 20%Z; Some 30%Z]
         [Build_element (H := vector_stash) 1 0;
          Build_element (H := vector_stash) 2 4;
          Build_element (H := vector_stash) 3 0])
    = count_relations db_three.
Proof.
  apply (counter_operations_keep_relations (H := vector_stash) 1
           (SetMembers 1 4) db_three); reflexivity.
Defined.


(** [counter_operations_on_removed_slot] on that removed slot. *)
Lemma counter_operations_on_removed_slot_witness :
  has_all_members {| m_pos := 0 |} db_after_removal = Done true
  ∧ decrement_members {| m_pos := 0 |} db_after_removal = AssertionFailed
  ∧ (∃ db'', set_members 3 {| m_pos := 0 |} db_after_removal = Done db''
       ∧ m_elements db'' !! 0%nat =
           Some {| handle := default_handle; members := 3 |})
  ∧ (∃ db'', increment_members {| m_pos := 0 |} db_after_removal = Done db''
       ∧ m_elements db'' !! 0%nat =
           Some {| handle := default_handle; members := 1 |}
       ∧ has_all_members {| m_pos := 0 |} db'' = Done false).
Proof.
  apply (counter_operations_on_removed_slot (H := vector_stash) 0
           (Build_RelationsDatabase (H := vector_stash)
              [Some 10%Z; Some 20%Z; Some 30%Z]
              [Build_element (H := vector_stash) 1 0;
               Build_element (H := vector_stash) 2 0;
               Build_element (H := vector_stash) 3 0])
           db_after_removal 3).
  reflexivity.
Defined.

(** [relation_of_removed_slot] with the concrete stash. *)
Lemma relation_of_removed_slot_witness :
  relation {| m_pos := 0 |} db_after_removal
    = get (m_stash db_after_removal) default_handle
  ∧ ∀ r, relation {| m_pos := 0 |} db_after_removal ≠ Done r.
Proof.
  apply (relation_of_removed_slot (H := vector_stash) 0
           (Build_RelationsDatabase (H := vector_stash)
              [Some 10%Z; Some 20%Z; Some 30%Z]
              [Build_element (H := vector_stash) 1 0;
               Build_element (H := vector_stash) 2 0;
               Build_element (H := vector_stash) 3 0])
           db_after_removal).
  - exact vector_stash_default_invalid.
  - exact vector_stash_get_checks.
  - reflexivity.
Defined.

(** [count_relations_counts_visits] on a database with a removed slot. *)
Lemma count_relations_counts_visits_witness :
  ∃ log, for_each_relation 5 record_position [] db_after_removal
           = Done (log, db_after_removal)
    ∧ length log = count_relations db_after_removal
    ∧ (count_relations db_after_removal ≤ size db_after_removal)%nat.
Proof.
  apply (count_relations_counts_visits (H := vector_stash) 5
           db_after_removal).
  vm_compute. lia.
Defined.

(** [for_each_relation_first_call] with a callback that fails on the
    first live relation. *)
Lemma for_each_relation_first_call_witness :
  for_each_relation 3
    (λ h (a : nat) db, db' ← decrement_members h db; mret (a, db'))
    0%nat db_after_removal
  = ((λ h (a : nat) db, db' ← decrement_members h db; mret (a, db'))
       {| m_pos := 1 |} 0%nat db_after_removal ≫=
     λ '(a', db'),
       for_each_relation_from (3 - 1 - 1)
         (λ h (a : nat) db, db' ← decrement_members h db; mret (a, db'))
         (1 + 1) a' db')
  ∧ ((∀ r, (λ h (a : nat) db, db' ← decrement_members h db; mret (a, db'))
             {| m_pos := 1 |} 0%nat db_after_removal ≠ Done r) →
     for_each_relation 3
       (λ h (a : nat) db, db' ← decrement_members h db; mret (a, db'))
       0%nat db_after_removal
     = (λ h (a : nat) db, db' ← decrement_members h db; mret (a, db'))
         {| m_pos := 1 |} 0%nat db_after_removal).
Proof.
  apply (for_each_relation_first_call (H := vector_stash)
           (λ h (a : nat) db, db' ← decrement_members h db; mret (a, db'))
           3 0%nat db_after_removal 1 [2%nat]).
  - vm_compute. lia.
  - reflexivity.
Defined.

(** [for_each_relation_nothing_live] on a database whose only relation was
    removed. *)
Lemma for_each_relation_nothing_live_witness :
  for_each_relation 1 count_and_increment 0%nat
    (Build_RelationsDatabase (H := vector_stash) [None]
       [Build_element (H := vector_stash) 0 0])
  = Done (0%nat,
          Build_RelationsDatabase (H := vector_stash) [None]
            [Build_element (H := vector_stash) 0 0]).
Proof.
  apply (for_each_relation_nothing_live (H := vector_stash)
           count_and_increment 1 0%nat
           (Build_RelationsDatabase (H := vector_stash) [None]
              [Build_element (H := vector_stash) 0 0])).
  - vm_compute. lia.
  - reflexivity.
Defined.


(** [output_add_all_permutation]: two objects in both orders. *)
Lemma output_add_all_permutation_witness :
  output_add_all (member_t := unit)
    [OsmNode 5%Z tt tt tt; OsmWay 9%Z [5%Z; 6%Z] tt] test_output_new
  = output_add_all (member_t := unit)
      [OsmWay 9%Z [5%Z; 6%Z] tt; OsmNode 5%Z tt tt tt] test_output_new.
Proof.
  apply (output_add_all_permutation
           (double := unit) (taglist_t := unit) (member_t := unit)
           [OsmNode 5%Z tt tt tt; OsmWay 9%Z [5%Z; 6%Z] tt]
           [OsmWay 9%Z [5%Z; 6%Z] tt; OsmNode 5%Z tt tt tt]
           test_output_new).
  apply perm_swap.
Defined.

(** [output_add_all_rejects_id]: a way with id 0 after a node. *)
Lemma output_add_all_rejects_id_witness :
  output_add_all (member_t := unit)
    [OsmNode 5%Z tt tt tt; OsmWay 0%Z [5%Z] tt] test_output_new
  = AssertionFailed.
Proof.
  apply (output_add_all_rejects_id
           (double := unit) (taglist_t := unit) (member_t := unit)
           (OsmWay 0%Z [5%Z] tt)
           [OsmNode 5%Z tt tt tt; OsmWay 0%Z [5%Z] tt] test_output_new).
  - right. left.
  - simpl. lia.
Defined.

(** [output_add_all_totals]: a node, a way of two nodes and a relation of
    three members. *)
Lemma output_add_all_totals_witness :
  output_add_all
    [OsmNode 5%Z tt tt tt; OsmWay 9%Z [5%Z; 6%Z] tt;
     OsmRelation 2%Z [tt; tt; tt] tt] test_output_new
  = Done {| sum_ids := 16; num_nodes := 1; num_ways := 1;
            num_relations := 1; num_nds := 2; num_members := 3 |}.
Proof.
  apply (output_add_all_totals
           (double := unit) (taglist_t := unit) (member_t := unit)
           [OsmNode 5%Z tt tt tt; OsmWay 9%Z [5%Z; 6%Z] tt;
            OsmRelation 2%Z [tt; tt; tt] tt] test_output_new).
  - unfold counters_are_uint64. simpl. unfold uint64_modulus. lia.
  - repeat constructor.
Defined.
